(** * Logistics dashboard: entity store, validation schemas, HTTP surface
      and route-optimizer client

    Shallow embedding of
    - [TestMemStorage] (the in-memory storage layer),
    - the four insert schemas ([insertShopSchema], ...),
    - the Express application built by [createTestApp],
    - the [optimizeMutation] of the [RouteOptimizer] component,
    followed by the properties of these that the specification states. *)

From Stdlib Require Import QArith ZArith Lia.
From stdpp Require Import base strings gmap list pretty.

#[local] Set Warnings "-register-all".
#[local] Open Scope string_scope.

(** ** JavaScript values *)

(** Numbers are the finite ones, as rationals: only their type, their sign,
    whether they are zero and whether they are integers is ever inspected.
    Objects are finite maps from property names to values (the order of the
    properties is never observed). *)
Inductive JsVal : Type :=
| JUndefined
| JNull
| JBool (b : bool)
| JNum (q : Q)
| JStr (s : string)
| JArr (l : list JsVal)
| JObj (o : gmap string JsVal).

Abbreviation JsObject := (gmap string JsVal).

Module Js.

(** [!v] is [negb (truthy v)]. *)
Definition truthy (v : JsVal) : bool :=
  match v with
  | JUndefined | JNull => false
  | JBool b => b
  | JNum q => negb (Qnum q =? 0)%Z
  | JStr s => negb (String.eqb s "")
  | JArr _ | JObj _ => true
  end.

(** [v == null] *)
Definition nullish (v : JsVal) : bool :=
  match v with
  | JUndefined | JNull => true
  | _ => false
  end.

(** [Number.isInteger] on a finite number. *)
Definition isInteger (q : Q) : bool := (Qnum q mod Z.pos (Qden q) =? 0)%Z.

Fixpoint chars (s : string) : list JsVal :=
  match s with
  | EmptyString => []
  | String c s' => JStr (String c EmptyString) :: chars s'
  end.

Definition indexed (l : list JsVal) : JsObject :=
  list_to_map (imap (fun i v => (pretty i, v)) l).

(** The own enumerable properties that [{...v}] copies: those of an
    object, the indices of an array or of a string, nothing for the other
    values. *)
Definition ownProps (v : JsVal) : JsObject :=
  match v with
  | JObj o => o
  | JArr l => indexed l
  | JStr s => indexed (chars s)
  | _ => ∅
  end.

(** [{...a, ...b}]: the properties of [b] win. *)
Definition spread (a b : JsObject) : JsObject := b ∪ a.

(** [const { k } = v] for a [v] that is not null or undefined (which is
    what [express.json()] leaves in [req.body]: an object or an array);
    the names read this way are never an index or [length]. *)
Definition getProp (k : string) (v : JsVal) : JsVal :=
  match v with
  | JObj o => default JUndefined (o !! k)
  | _ => JUndefined
  end.

End Js.

(** ** [Map<string, V>]: insertion ordered, one entry per key *)

Module JsMap.
Section JsMap.
Context {V : Type}.

Definition t := list (string * V).

Definition empty : t := [].

Fixpoint get (k : string) (m : t) : option V :=
  match m with
  | [] => None
  | (k', v) :: m' => if decide (k = k') then Some v else get k m'
  end.

Definition has (k : string) (m : t) : bool :=
  match get k m with Some _ => true | None => false end.

(** [set] keeps the position of a key that is already there and appends
    a new one. *)
Fixpoint set (k : string) (v : V) (m : t) : t :=
  match m with
  | [] => [(k, v)]
  | (k', v') :: m' =>
      if decide (k = k') then (k, v) :: m' else (k', v') :: set k v m'
  end.

Definition remove (k : string) (m : t) : t :=
  filter (fun p => p.1 ≠ k) m.

(** [delete] answers whether the key was there. *)
Definition delete (k : string) (m : t) : bool * t := (has k m, remove k m).

Definition values (m : t) : list V := m.*2.

Definition keys (m : t) : list string := m.*1.

Definition size (m : t) : nat := length m.
End JsMap.
Arguments t : clear implicits.
End JsMap.

(** ** The storage layer: [class TestMemStorage] *)

Inductive Kind := Shop | Driver | Route | Target.

#[global] Instance Kind_eq_dec : EqDecision Kind.
Proof. solve_decision. Defined.

Module MemStorage.

Record TestMemStorage := mkStorage {
  shops : JsMap.t JsObject;
  drivers : JsMap.t JsObject;
  routes : JsMap.t JsObject;
  targets : JsMap.t JsObject;
  idCounter : nat;
}.

(** [new TestMemStorage()] *)
Definition new : TestMemStorage :=
  {| shops := JsMap.empty; drivers := JsMap.empty; routes := JsMap.empty;
     targets := JsMap.empty; idCounter := 0 |}.

(** [`test-id-${++this.idCounter}`].  The counter is a natural number: the
    increments of a JavaScript number are exact below 2^53, and the template
    writes such an integer in decimal. *)
Definition genId (st : TestMemStorage) : string * TestMemStorage :=
  let c := S (idCounter st) in
  ("test-id-" +:+ pretty c,
   {| shops := shops st; drivers := drivers st; routes := routes st;
      targets := targets st; idCounter := c |}).

(** The id that [genId] makes of the counter value [n], as a value. *)
Definition storageId (n : nat) : JsVal := JStr ("test-id-" +:+ pretty n).

(** The four groups of methods are the same code over the four maps;
    [coll] and [with_coll] select the map of a kind. *)
Definition coll (k : Kind) (st : TestMemStorage) : JsMap.t JsObject :=
  match k with
  | Shop => shops st
  | Driver => drivers st
  | Route => routes st
  | Target => targets st
  end.

Definition with_coll (k : Kind) (m : JsMap.t JsObject) (st : TestMemStorage)
  : TestMemStorage :=
  match k with
  | Shop => {| shops := m; drivers := drivers st; routes := routes st;
               targets := targets st; idCounter := idCounter st |}
  | Driver => {| shops := shops st; drivers := m; routes := routes st;
                 targets := targets st; idCounter := idCounter st |}
  | Route => {| shops := shops st; drivers := drivers st; routes := m;
                targets := targets st; idCounter := idCounter st |}
  | Target => {| shops := shops st; drivers := drivers st; routes := routes st;
                 targets := m; idCounter := idCounter st |}
  end.

Definition getAll (k : Kind) (st : TestMemStorage) : list JsObject :=
  JsMap.values (coll k st).

Definition get (k : Kind) (id : string) (st : TestMemStorage) : option JsObject :=
  JsMap.get id (coll k st).

(** [const id = this.genId(); const x = { ...data, id }; map.set(id, x);
    return x] *)
Definition create (k : Kind) (data : JsVal) (st : TestMemStorage)
  : JsObject * TestMemStorage :=
  let '(id, st1) := genId st in
  let x := <["id" := JStr id]> (Js.ownProps data) in
  (x, with_coll k (JsMap.set id x (coll k st1)) st1).

(** [const x = map.get(id); if (!x) return undefined;
    const updated = { ...x, ...updates }; map.set(id, updated);
    return updated].  A stored value is an object, hence truthy. *)
Definition update (k : Kind) (id : string) (updates : JsVal) (st : TestMemStorage)
  : option JsObject * TestMemStorage :=
  match JsMap.get id (coll k st) with
  | None => (None, st)
  | Some x =>
      let updated := Js.spread x (Js.ownProps updates) in
      (Some updated, with_coll k (JsMap.set id updated (coll k st)) st)
  end.

(** [return map.delete(id)] *)
Definition delete (k : Kind) (id : string) (st : TestMemStorage)
  : bool * TestMemStorage :=
  let '(b, m) := JsMap.delete id (coll k st) in
  (b, with_coll k m st).

Definition getAllShops := getAll Shop.
Definition getShop := get Shop.
Definition createShop := create Shop.
Definition updateShop := update Shop.
Definition deleteShop := delete Shop.

Definition getAllDrivers := getAll Driver.
Definition getDriver := get Driver.
Definition createDriver := create Driver.
Definition updateDriver := update Driver.
Definition deleteDriver := delete Driver.

Definition getAllRoutes := getAll Route.
Definition getRoute := get Route.
Definition createRoute := create Route.
Definition updateRoute := update Route.
Definition deleteRoute := delete Route.

Definition getAllTargets := getAll Target.
Definition getTarget := get Target.
Definition createTarget := create Target.
Definition updateTarget := update Target.
Definition deleteTarget := delete Target.

(** A caller's sequence of calls, and the ids its [create]s returned,
    oldest first. *)
Inductive Call :=
| CCreate (k : Kind) (data : JsVal)
| CUpdate (k : Kind) (id : string) (updates : JsVal)
| CDelete (k : Kind) (id : string).

Definition idOf (x : JsObject) : JsVal := default JUndefined (x !! "id").

Definition call (c : Call) (st : TestMemStorage) : list JsVal * TestMemStorage :=
  match c with
  | CCreate k data => let '(x, st') := create k data st in ([idOf x], st')
  | CUpdate k id updates => ([], (update k id updates st).2)
  | CDelete k id => ([], (delete k id st).2)
  end.

Fixpoint run (cs : list Call) (st : TestMemStorage) : list JsVal * TestMemStorage :=
  match cs with
  | [] => ([], st)
  | c :: cs' =>
      let '(ids, st1) := call c st in
      let '(ids', st2) := run cs' st1 in
      ((ids ++ ids')%list, st2)
  end.

End MemStorage.

(** ** The validation layer: the insert schemas *)

Module Zod.

(** The schema combinators the four insert schemas are written with.
    [ZString None] is [z.string()], [ZString (Some n)] is
    [z.string().min(n)], [ZNumber true] is [z.number().int()]. *)
Inductive Schema :=
| ZString (min : option nat)
| ZNumber (int : bool)
| ZArray (elem : Schema)
| ZOptional (inner : Schema)
| ZNullable (inner : Schema)
| ZDefault (inner : Schema) (d : JsVal).

(** [z.object({ ... })]: the fields in the order they are written. *)
Definition ObjectSchema := list (string * Schema).

Inductive Seg := Key (k : string) | Index (i : nat).

Inductive Code := invalid_type | too_small.

(** One violated constraint: what is wrong and where. *)
Record Issue := mkIssue { code : Code; path : list Seg }.

Inductive Result (A : Type) :=
| Ok (data : A)
| Err (issues : list Issue).
Arguments Ok {A} data.
Arguments Err {A} issues.

Definition success {A} (r : Result A) : bool :=
  match r with Ok _ => true | Err _ => false end.

Definition issuesOf {A} (r : Result A) : list Issue :=
  match r with Ok _ => [] | Err l => l end.

Definition valueOf (r : Result JsVal) : JsVal :=
  match r with Ok v => v | Err _ => JUndefined end.

(** Modelled from the spec: the zod library that interprets the schemas is
    not part of the sources.  [parse] and [safeParse] follow section 4.2:
    a field is checked against its type (a string, with its minimal
    length; a number, an integer where [.int()] is written; an array,
    element by element), [undefined] is accepted where the field is
    optional, [null] where it is nullable, [undefined] is replaced by the
    default where there is one, and every violated constraint is reported
    with the path of the field. *)
Fixpoint parse (s : Schema) (p : list Seg) (v : JsVal) : Result JsVal :=
  match s with
  | ZString min =>
      match v with
      | JStr x =>
          match min with
          | Some n =>
              if (String.length x <? n)%nat then Err [mkIssue too_small p]
              else Ok v
          | None => Ok v
          end
      | _ => Err [mkIssue invalid_type p]
      end
  | ZNumber int =>
      match v with
      | JNum q =>
          if int && negb (Js.isInteger q) then Err [mkIssue invalid_type p]
          else Ok v
      | _ => Err [mkIssue invalid_type p]
      end
  | ZArray elem =>
      match v with
      | JArr l =>
          let rs := imap (fun i x => parse elem (p ++ [Index i])%list x) l in
          match concat (issuesOf <$> rs) with
          | [] => Ok (JArr (valueOf <$> rs))
          | iss => Err iss
          end
      | _ => Err [mkIssue invalid_type p]
      end
  | ZOptional inner =>
      match v with
      | JUndefined => Ok JUndefined
      | _ => parse inner p v
      end
  | ZNullable inner =>
      match v with
      | JNull => Ok JNull
      | _ => parse inner p v
      end
  | ZDefault inner d =>
      match v with
      | JUndefined => parse inner p d
      | _ => parse inner p v
      end
  end.

(** A parsed field is written to the output when its value is not
    [undefined] or its key was in the input; keys that are not in the
    schema are dropped. *)
Definition emit (k : string) (v : JsVal) (o out : JsObject) : JsObject :=
  match v, o !! k with
  | JUndefined, None => out
  | _, _ => <[k := v]> out
  end.

Fixpoint parseShape (shape : ObjectSchema) (o : JsObject) : list Issue * JsObject :=
  match shape with
  | [] => ([], ∅)
  | (k, s) :: rest =>
      let '(iss, out) := parseShape rest o in
      match parse s [Key k] (default JUndefined (o !! k)) with
      | Ok v => (iss, emit k v o out)
      | Err iss' => ((iss' ++ iss)%list, out)
      end
  end.

(** Modelled from the spec: see [parse]. *)
Definition safeParse (shape : ObjectSchema) (v : JsVal) : Result JsObject :=
  match v with
  | JObj o =>
      match parseShape shape o with
      | ([], out) => Ok out
      | (iss, _) => Err iss
      end
  | _ => Err [mkIssue invalid_type []]
  end.

(** [s.optional().nullable()] *)
Definition optionalNullable (s : Schema) : Schema := ZNullable (ZOptional s).

Definition insertShopSchema : ObjectSchema :=
  [ ("name", ZString (Some 1));
    ("ownerName", optionalNullable (ZString None));
    ("phone", optionalNullable (ZString None));
    ("address", optionalNullable (ZString None));
    ("latitude", ZNumber false);
    ("longitude", ZNumber false);
    ("category", ZDefault (ZString None) (JStr "retail"));
    ("status", ZDefault (ZString None) (JStr "active"));
    ("addedBy", optionalNullable (ZString None));
    ("notes", optionalNullable (ZString None)) ].

Definition insertDriverSchema : ObjectSchema :=
  [ ("name", ZString (Some 1));
    ("phone", ZString (Some 1));
    ("vehicleType", ZString (Some 1));
    ("vehiclePlate", optionalNullable (ZString None));
    ("status", ZDefault (ZString None) (JStr "available"));
    ("currentLatitude", optionalNullable (ZNumber false));
    ("currentLongitude", optionalNullable (ZNumber false)) ].

Definition insertRouteSchema : ObjectSchema :=
  [ ("name", ZString (Some 1));
    ("driverId", optionalNullable (ZString None));
    ("shopIds", ZDefault (ZArray (ZString None)) (JArr []));
    ("status", ZDefault (ZString None) (JStr "planned"));
    ("estimatedDistance", optionalNullable (ZNumber false));
    ("estimatedTime", optionalNullable (ZNumber false));
    ("date", ZString (Some 1)) ].

Definition insertTargetSchema : ObjectSchema :=
  [ ("driverId", ZString (Some 1));
    ("period", ZString (Some 1));
    ("targetShops", ZNumber true);
    ("targetDeliveries", ZNumber true);
    ("completedShops", ZDefault (ZNumber true) (JNum 0));
    ("completedDeliveries", ZDefault (ZNumber true) (JNum 0));
    ("startDate", ZString (Some 1));
    ("endDate", ZString (Some 1)) ].

Definition insertSchema (k : Kind) : ObjectSchema :=
  match k with
  | Shop => insertShopSchema
  | Driver => insertDriverSchema
  | Route => insertRouteSchema
  | Target => insertTargetSchema
  end.

(** The fields that hold a number (an integer), under any of the
    optional, nullable and default wrappers. *)
Fixpoint numeric (s : Schema) : bool :=
  match s with
  | ZNumber _ => true
  | ZOptional s' | ZNullable s' | ZDefault s' _ => numeric s'
  | _ => false
  end.

Fixpoint integral (s : Schema) : bool :=
  match s with
  | ZNumber int => int
  | ZOptional s' | ZNullable s' | ZDefault s' _ => integral s'
  | _ => false
  end.

(** A value that was supplied ([undefined] and [null] stand for a field
    that is left out) and is not a number. *)
Definition nonNumber (v : JsVal) : bool :=
  match v with
  | JStr _ | JBool _ | JArr _ | JObj _ => true
  | _ => false
  end.

(** The value the schema reads for a field. *)
Definition field (k : string) (o : JsObject) : JsVal := default JUndefined (o !! k).

(** The field [k] is among the violations reported. *)
Definition reported (k : string) (iss : list Issue) : Prop :=
  ∃ i, i ∈ iss ∧ head (path i) = Some (Key k).

End Zod.

(** ** The HTTP surface: the application built by [createTestApp] *)

Module Api.

(** The maps and the counter the handlers close over. *)
Record Store := mkStore {
  shops : JsMap.t JsObject;
  drivers : JsMap.t JsObject;
  routes : JsMap.t JsObject;
  targets : JsMap.t JsObject;
  idCounter : nat;
}.

Definition createTestApp : Store :=
  {| shops := JsMap.empty; drivers := JsMap.empty; routes := JsMap.empty;
     targets := JsMap.empty; idCounter := 0 |}.

(** [`test-${++idCounter}`] *)
Definition genId (st : Store) : string * Store :=
  let c := S (idCounter st) in
  ("test-" +:+ pretty c,
   {| shops := shops st; drivers := drivers st; routes := routes st;
      targets := targets st; idCounter := c |}).

Definition coll (k : Kind) (st : Store) : JsMap.t JsObject :=
  match k with
  | Shop => shops st
  | Driver => drivers st
  | Route => routes st
  | Target => targets st
  end.

Definition with_coll (k : Kind) (m : JsMap.t JsObject) (st : Store) : Store :=
  match k with
  | Shop => {| shops := m; drivers := drivers st; routes := routes st;
               targets := targets st; idCounter := idCounter st |}
  | Driver => {| shops := shops st; drivers := m; routes := routes st;
                 targets := targets st; idCounter := idCounter st |}
  | Route => {| shops := shops st; drivers := drivers st; routes := m;
                targets := targets st; idCounter := idCounter st |}
  | Target => {| shops := shops st; drivers := drivers st; routes := routes st;
                 targets := m; idCounter := idCounter st |}
  end.

Inductive Method := GET | POST | PATCH | PUT | DELETE.

(** A request after [express.json()]: the path split at its slashes, the
    parsed body. *)
Record Request := mkRequest {
  method : Method;
  path : list string;
  body : JsVal;
}.

(** [json] is the value given to [res.json], [None] when the response
    carries no JSON ([res.send()], or no handler answered).  The bodies the
    handlers send are built from parsed JSON, so serialising them changes
    nothing. *)
Record Response := mkResponse {
  status : nat;
  json : option JsVal;
}.

Definition error (msg : string) : JsVal := JObj {["error" := JStr msg]}.

Definition list_json (m : JsMap.t JsObject) : JsVal :=
  JArr (JObj <$> JsMap.values m).

(** [app.get("/api/shops", ...)] *)
Definition get_shops (st : Store) : Response * Store :=
  (mkResponse 200 (Some (list_json (shops st))), st).

(** [app.get("/api/shops/:id", ...)] *)
Definition get_shop (id : string) (st : Store) : Response * Store :=
  match JsMap.get id (shops st) with
  | None => (mkResponse 404 (Some (error "Shop not found")), st)
  | Some shop => (mkResponse 200 (Some (JObj shop)), st)
  end.

(** [app.post("/api/shops", ...)]: the new record is [{ id, ...req.body }] *)
Definition post_shops (b : JsVal) (st : Store) : Response * Store :=
  let name := Js.getProp "name" b in
  let latitude := Js.getProp "latitude" b in
  let longitude := Js.getProp "longitude" b in
  if negb (Js.truthy name) || Js.nullish latitude || Js.nullish longitude
  then (mkResponse 400 (Some (error "Invalid shop data")), st)
  else
    let '(id, st1) := genId st in
    let shop := Js.spread {["id" := JStr id]} (Js.ownProps b) in
    (mkResponse 201 (Some (JObj shop)),
     with_coll Shop (JsMap.set id shop (shops st1)) st1).

(** [app.patch("/api/shops/:id", ...)] *)
Definition patch_shop (id : string) (b : JsVal) (st : Store) : Response * Store :=
  match JsMap.get id (shops st) with
  | None => (mkResponse 404 (Some (error "Shop not found")), st)
  | Some shop =>
      let updated := Js.spread shop (Js.ownProps b) in
      (mkResponse 200 (Some (JObj updated)),
       with_coll Shop (JsMap.set id updated (shops st)) st)
  end.

(** [app.delete("/api/shops/:id", ...)] *)
Definition delete_shop (id : string) (st : Store) : Response * Store :=
  if negb (JsMap.has id (shops st))
  then (mkResponse 404 (Some (error "Shop not found")), st)
  else (mkResponse 204 None, with_coll Shop (JsMap.delete id (shops st)).2 st).

(** [app.get("/api/drivers", ...)] *)
Definition get_drivers (st : Store) : Response * Store :=
  (mkResponse 200 (Some (list_json (drivers st))), st).

(** [app.post("/api/drivers", ...)]: the new record is
    [{ id, status: "available", ...req.body }] *)
Definition post_drivers (b : JsVal) (st : Store) : Response * Store :=
  let name := Js.getProp "name" b in
  let phone := Js.getProp "phone" b in
  let vehicleType := Js.getProp "vehicleType" b in
  if negb (Js.truthy name) || negb (Js.truthy phone) || negb (Js.truthy vehicleType)
  then (mkResponse 400 (Some (error "Invalid driver data")), st)
  else
    let '(id, st1) := genId st in
    let driver :=
      Js.spread (<["id" := JStr id]> {["status" := JStr "available"]})
                (Js.ownProps b) in
    (mkResponse 201 (Some (JObj driver)),
     with_coll Driver (JsMap.set id driver (drivers st1)) st1).

(** [app.delete("/api/drivers/:id", ...)] *)
Definition delete_driver (id : string) (st : Store) : Response * Store :=
  if negb (JsMap.has id (drivers st))
  then (mkResponse 404 (Some (error "Driver not found")), st)
  else (mkResponse 204 None, with_coll Driver (JsMap.delete id (drivers st)).2 st).

(** [app.get("/api/routes", ...)] *)
Definition get_routes (st : Store) : Response * Store :=
  (mkResponse 200 (Some (list_json (routes st))), st).

(** [app.post("/api/routes", ...)]: the new record is
    [{ id, status: "planned", shopIds: [], ...req.body }] *)
Definition post_routes (b : JsVal) (st : Store) : Response * Store :=
  let name := Js.getProp "name" b in
  let date := Js.getProp "date" b in
  if negb (Js.truthy name) || negb (Js.truthy date)
  then (mkResponse 400 (Some (error "Invalid route data")), st)
  else
    let '(id, st1) := genId st in
    let route :=
      Js.spread (<["id" := JStr id]>
                   (<["status" := JStr "planned"]> {["shopIds" := JArr []]}))
                (Js.ownProps b) in
    (mkResponse 201 (Some (JObj route)),
     with_coll Route (JsMap.set id route (routes st1)) st1).

(** [app.get("/api/targets", ...)] *)
Definition get_targets (st : Store) : Response * Store :=
  (mkResponse 200 (Some (list_json (targets st))), st).

(** [app.post("/api/targets", ...)]: the new record is
    [{ id, completedShops: 0, completedDeliveries: 0, ...req.body }] *)
Definition post_targets (b : JsVal) (st : Store) : Response * Store :=
  let driverId := Js.getProp "driverId" b in
  let period := Js.getProp "period" b in
  let targetShops := Js.getProp "targetShops" b in
  let targetDeliveries := Js.getProp "targetDeliveries" b in
  let startDate := Js.getProp "startDate" b in
  let endDate := Js.getProp "endDate" b in
  if negb (Js.truthy driverId) || negb (Js.truthy period)
     || Js.nullish targetShops || Js.nullish targetDeliveries
     || negb (Js.truthy startDate) || negb (Js.truthy endDate)
  then (mkResponse 400 (Some (error "Invalid target data")), st)
  else
    let '(id, st1) := genId st in
    let target :=
      Js.spread (<["id" := JStr id]>
                   (<["completedShops" := JNum 0]>
                      {["completedDeliveries" := JNum 0]}))
                (Js.ownProps b) in
    (mkResponse 201 (Some (JObj target)),
     with_coll Target (JsMap.set id target (targets st1)) st1).

(** The message of the 400 answer of a create handler. *)
Definition invalidMessage (k : Kind) : string :=
  match k with
  | Shop => "Invalid shop data"
  | Driver => "Invalid driver data"
  | Route => "Invalid route data"
  | Target => "Invalid target data"
  end.

(** The create handler of a kind. *)
Definition post (k : Kind) : JsVal → Store → Response * Store :=
  match k with
  | Shop => post_shops
  | Driver => post_drivers
  | Route => post_routes
  | Target => post_targets
  end.

(** [app.get("/api/health", ...)]; [now] is [new Date().toISOString()]. *)
Definition get_health (now : string) (st : Store) : Response * Store :=
  (mkResponse 200
     (Some (JObj (<["status" := JStr "ok"]> {["timestamp" := JStr now]}))), st).

(** No handler matches: Express answers 404 and the store is not touched. *)
Definition no_route (st : Store) : Response * Store := (mkResponse 404 None, st).

Definition kindOf (segment : string) : option Kind :=
  if decide (segment = "shops") then Some Shop
  else if decide (segment = "drivers") then Some Driver
  else if decide (segment = "routes") then Some Route
  else if decide (segment = "targets") then Some Target
  else None.

(** The routes registered by [createTestApp], in order of registration.
    None of the handlers throws, so the final error handler (status 500) is
    never entered. *)
Definition handle (now : string) (req : Request) (st : Store) : Response * Store :=
  match path req with
  | [api; name] =>
      if decide (api = "api") then
        if decide (name = "health") then
          match method req with GET => get_health now st | _ => no_route st end
        else
          match kindOf name, method req with
          | Some Shop, GET => get_shops st
          | Some Shop, POST => post_shops (body req) st
          | Some Driver, GET => get_drivers st
          | Some Driver, POST => post_drivers (body req) st
          | Some Route, GET => get_routes st
          | Some Route, POST => post_routes (body req) st
          | Some Target, GET => get_targets st
          | Some Target, POST => post_targets (body req) st
          | _, _ => no_route st
          end
      else no_route st
  | [api; name; id] =>
      if decide (api = "api") then
        match kindOf name, method req with
        | Some Shop, GET => get_shop id st
        | Some Shop, PATCH => patch_shop id (body req) st
        | Some Shop, DELETE => delete_shop id st
        | Some Driver, DELETE => delete_driver id st
        | _, _ => no_route st
        end
      else no_route st
  | _ => no_route st
  end.

(** Serving requests one after the other. *)
Fixpoint serve (now : string) (reqs : list Request) (st : Store)
  : list Response * Store :=
  match reqs with
  | [] => ([], st)
  | r :: reqs' =>
      let '(resp, st1) := handle now r st in
      let '(resps, st2) := serve now reqs' st1 in
      (resp :: resps, st2)
  end.

(** The [id] a response body shows. *)
Definition idOf (r : Response) : JsVal :=
  match json r with
  | Some v => Js.getProp "id" v
  | None => JUndefined
  end.

End Api.

(** ** The route optimizer: [optimizeMutation] of [RouteOptimizer] *)

Module Optimizer.

Record RouteOptimizationResult := mkResult {
  optimizedOrder : list string;
  originalDistance : Q;
  optimizedDistance : Q;
  timeSaved : Q;
  fuelSaved : Q;
  suggestions : list string;
}.

(** How the promise of [mutationFn] settles.  [apiRequest] and the server
    behind it are not in the sources: their answer is an input here. *)
Inductive Settled :=
| Resolved (data : RouteOptimizationResult)
| Rejected.

(** The two numbers the description of the success toast is built from:
    [`Saved ${data.timeSaved} minutes and ${data.fuelSaved}L of fuel`]. *)
Inductive Description := Saved (minutes litres : Q).

Record Toast := mkToast {
  title : string;
  description : option Description;
  destructive : bool;
}.

(** The cache entry of the query ["/api/analytics/route-optimizations"]. *)
Record Query := mkQuery {
  data : option (list RouteOptimizationResult);
  isInvalidated : bool;
}.

Inductive Mutation :=
| Idle
| Pending
| Success (data : RouteOptimizationResult)
| Error.

Record Client := mkClient {
  selectedRoute : string;
  mutation : Mutation;
  toasts : list Toast;
  optimizationHistory : Query;
  requests : list string;
}.

Definition isPending (c : Client) : bool :=
  match mutation c with Pending => true | _ => false end.

(** [disabled={!selectedRoute || optimizeMutation.isPending}] *)
Definition disabled (c : Client) : bool :=
  String.eqb (selectedRoute c) "" || isPending c.

Definition url (routeId : string) : string :=
  "/api/analytics/optimize-route/" +:+ routeId.

(** [onClick]: [selectedRoute && optimizeMutation.mutate(selectedRoute)];
    a disabled button does not fire. *)
Definition click (c : Client) : Client :=
  if disabled c then c
  else {| selectedRoute := selectedRoute c;
          mutation := Pending;
          toasts := toasts c;
          optimizationHistory := optimizationHistory c;
          requests := (requests c ++ [url (selectedRoute c)])%list |}.

Definition toast (t : Toast) (c : Client) : Client :=
  {| selectedRoute := selectedRoute c;
     mutation := mutation c;
     toasts := (toasts c ++ [t])%list;
     optimizationHistory := optimizationHistory c;
     requests := requests c |}.

(** [queryClient.invalidateQueries({ queryKey: [...] })]: the entry is
    marked, its data is left as it is. *)
Definition invalidateQueries (c : Client) : Client :=
  {| selectedRoute := selectedRoute c;
     mutation := mutation c;
     toasts := toasts c;
     optimizationHistory :=
       {| data := data (optimizationHistory c); isInvalidated := true |};
     requests := requests c |}.

Definition settled (m : Mutation) (c : Client) : Client :=
  {| selectedRoute := selectedRoute c;
     mutation := m;
     toasts := toasts c;
     optimizationHistory := optimizationHistory c;
     requests := requests c |}.

Definition onSuccess (d : RouteOptimizationResult) (c : Client) : Client :=
  invalidateQueries
    (toast (mkToast "Route Optimized" (Some (Saved (timeSaved d) (fuelSaved d))) false) c).

Definition onError (c : Client) : Client :=
  toast (mkToast "Optimization Failed" None true) c.

(** The pending mutation settles. *)
Definition settle (s : Settled) (c : Client) : Client :=
  match mutation c with
  | Pending =>
      match s with
      | Resolved d => settled (Success d) (onSuccess d c)
      | Rejected => settled Error (onError c)
      end
  | _ => c
  end.

(** Pressing the button and waiting for the answer of the collaborator
    [server], which is asked with the url of the request. *)
Definition optimize (server : string → Settled) (c : Client) : Client :=
  let c1 := click c in
  if disabled c then c1 else settle (server (url (selectedRoute c))) c1.

(** What the caller is shown when the optimization failed. *)
Definition failureNotice (c : Client) : Prop :=
  mutation c = Error ∧ last (toasts c) = Some (mkToast "Optimization Failed" None true).

End Optimizer.

(** ** Inputs used in the tests and in the specification *)

Module Samples.

(** [{ name: "X", latitude: -1.26, longitude: 36.86 }] *)
Definition shopX : JsObject :=
  <["name" := JStr "X"]>
    (<["latitude" := JNum (-126 # 100)]> {["longitude" := JNum (3686 # 100)]}).

(** [{ latitude: -1.26, longitude: 36.86 }] *)
Definition shopNoName : JsObject :=
  <["latitude" := JNum (-126 # 100)]> {["longitude" := JNum (3686 # 100)]}.

(** [{ name: "D", phone: "+254700000000" }] *)
Definition driverD : JsObject :=
  <["name" := JStr "D"]> {["phone" := JStr "+254700000000"]}.

(** [{ name: "Sam", phone: "+254700000000", vehicleType: "van" }] *)
Definition driverSam : JsObject :=
  <["name" := JStr "Sam"]>
    (<["phone" := JStr "+254700000000"]> {["vehicleType" := JStr "van"]}).

(** [{ name: "Bad Coords", latitude: "not-a-number", longitude: 36.86 }] *)
Definition shopBadCoords : JsObject :=
  <["name" := JStr "Bad Coords"]>
    (<["latitude" := JStr "not-a-number"]> {["longitude" := JNum (3686 # 100)]}).

(** [{ name: "X", latitude: "-1.26", longitude: 36.86 }] *)
Definition shopNumericString : JsObject :=
  <["name" := JStr "X"]>
    (<["latitude" := JStr "-1.26"]> {["longitude" := JNum (3686 # 100)]}).

(** [{ driverId: "d1", period: "weekly", targetShops: 10.5,
       targetDeliveries: 20, startDate: "2026-02-18", endDate: "2026-02-24" }] *)
Definition targetFractional : JsObject :=
  <["driverId" := JStr "d1"]>
    (<["period" := JStr "weekly"]>
       (<["targetShops" := JNum (105 # 10)]>
          (<["targetDeliveries" := JNum 20]>
             (<["startDate" := JStr "2026-02-18"]>
                {["endDate" := JStr "2026-02-24"]})))).

(** [{ category: "retail" }]: no name, no coordinates *)
Definition shopOnlyCategory : JsObject := {["category" := JStr "retail"]}.

(** [{ name: "R1", date: "2026-02-18" }] *)
Definition routeR1 : JsObject :=
  <["name" := JStr "R1"]> {["date" := JStr "2026-02-18"]}.

(** [{ id: "dup", name: "A", latitude: -1.26, longitude: 36.86 }] *)
Definition shopWithId : JsObject :=
  <["id" := JStr "dup"]>
    (<["name" := JStr "A"]>
       (<["latitude" := JNum (-126 # 100)]> {["longitude" := JNum (3686 # 100)]})).

(** [{ name: "Old Name", latitude: -1.25 }] and [{ name: "New Name" }] *)
Definition shopOld : JsObject :=
  <["name" := JStr "Old Name"]> {["latitude" := JNum (-125 # 100)]}.

Definition patchName : JsObject := {["name" := JStr "New Name"]}.

(** [{ status: "in_progress" }] *)
Definition patchStatus : JsObject := {["status" := JStr "in_progress"]}.

(** A collaborator that answers every request with an optimization that
    lost five minutes and saved two litres. *)
Definition slowerResult : Optimizer.RouteOptimizationResult :=
  {| Optimizer.optimizedOrder := ["s2"; "s1"];
     Optimizer.originalDistance := 10;
     Optimizer.optimizedDistance := 12;
     Optimizer.timeSaved := -5;
     Optimizer.fuelSaved := 2;
     Optimizer.suggestions := [] |}.

Definition slowerServer (url : string) : Optimizer.Settled :=
  Optimizer.Resolved slowerResult.

Definition failingServer (url : string) : Optimizer.Settled := Optimizer.Rejected.

(** A client on which route [r1] is selected and nothing has happened. *)
Definition clientR1 : Optimizer.Client :=
  {| Optimizer.selectedRoute := "r1";
     Optimizer.mutation := Optimizer.Idle;
     Optimizer.toasts := [];
     Optimizer.optimizationHistory := Optimizer.mkQuery (Some []) false;
     Optimizer.requests := [] |}.

End Samples.

(** ** The backup endpoints: the application built by [createBackupTestApp] *)

Module Backup.

(** [process.env.CRON_SECRET || "test-cron-secret"]: a variable that is not
    set, or set to the empty string, gives the default. *)
Definition cronSecret (env : option string) : string :=
  match env with
  | Some s => if String.eqb s "" then "test-cron-secret" else s
  | None => "test-cron-secret"
  end.

(** A request as the handlers read it: the method, the path split at its
    slashes, and the value of the [Authorization] header when there is
    one. *)
Record Request := mkRequest {
  method : Api.Method;
  path : list string;
  authorization : option string;
}.

(** [req.header("authorization") || ""] *)
Definition authHeader (req : Request) : string := default "" (authorization req).

(** [`Bearer ${cronSecret}`] *)
Definition expected (env : option string) : string := "Bearer " +:+ cronSecret env.

Definition notAuthenticated : Api.Response :=
  Api.mkResponse 401 (Some (Api.error "Not authenticated")).

(** The body of [POST /api/backup]; [now] is [new Date().toISOString()]. *)
Definition manualBackup (now : string) : JsVal :=
  JObj (<["version" := JStr "1.0"]>
        (<["createdAt" := JStr now]>
         (<["type" := JStr "manual"]>
          (<["data" := JObj (<["shops" := JArr []]>
                             (<["drivers" := JArr []]>
                              (<["routes" := JArr []]> {["targets" := JArr []]})))]>
           {["metadata" := JObj (<["totalRecords" := JNum 0]> {["tables" := JObj ∅]})]})))).


(** [app.post("/test/login", ...)] *)
Definition login (isLoggedIn : bool) : Api.Response * bool :=
  (Api.mkResponse 200 (Some (JObj {["ok" := JBool true]})), true).

(** [app.post("/api/backup", isAuthenticated, ...)] *)
Definition backup (now : string) (isLoggedIn : bool) : Api.Response * bool :=
  if negb isLoggedIn then (notAuthenticated, isLoggedIn)
  else (Api.mkResponse 200 (Some (manualBackup now)), isLoggedIn).

(** [app.post("/api/backup/cron", ...)] *)
Definition cron (env : option string) (now : string) (req : Request) (isLoggedIn : bool)
  : Api.Response * bool :=
  if negb (String.eqb (authHeader req) (expected env))
  then (Api.mkResponse 401 (Some (Api.error "Unauthorized")), isLoggedIn)
  else (Api.mkResponse 200
          (Some (JObj (<["success" := JBool true]>
                       (<["createdAt" := JStr now]> {["recordCount" := JNum 0]})))),
        isLoggedIn).

(** [app.get("/api/backup/history", isAuthenticated, ...)] *)
Definition history (isLoggedIn : bool) : Api.Response * bool :=
  if negb isLoggedIn then (notAuthenticated, isLoggedIn)
  else (Api.mkResponse 200 (Some (JArr [])), isLoggedIn).

(** The routes registered by [createBackupTestApp]; a request that matches
    none is answered 404. *)
Definition handle (env : option string) (now : string) (req : Request) (isLoggedIn : bool)
  : Api.Response * bool :=
  if decide (path req = ["test"; "login"]) then
    match method req with
    | Api.POST => login isLoggedIn
    | _ => (Api.mkResponse 404 None, isLoggedIn)
    end
  else if decide (path req = ["api"; "backup"]) then
    match method req with
    | Api.POST => backup now isLoggedIn
    | _ => (Api.mkResponse 404 None, isLoggedIn)
    end
  else if decide (path req = ["api"; "backup"; "cron"]) then
    match method req with
    | Api.POST => cron env now req isLoggedIn
    | _ => (Api.mkResponse 404 None, isLoggedIn)
    end
  else if decide (path req = ["api"; "backup"; "history"]) then
    match method req with
    | Api.GET => history isLoggedIn
    | _ => (Api.mkResponse 404 None, isLoggedIn)
    end
  else (Api.mkResponse 404 None, isLoggedIn).

Fixpoint serve (env : option string) (now : string) (reqs : list Request) (isLoggedIn : bool)
  : list Api.Response * bool :=
  match reqs with
  | [] => ([], isLoggedIn)
  | r :: reqs' =>
      let '(resp, st1) := handle env now r isLoggedIn in
      let '(resps, st2) := serve env now reqs' st1 in
      (resp :: resps, st2)
  end.

#[global] Instance Method_eq_dec : EqDecision Api.Method.
Proof. solve_decision. Defined.

(** The endpoints behind [isAuthenticated]. *)
Definition protected (req : Request) : Prop :=
  (method req = Api.POST ∧ path req = ["api"; "backup"]) ∨
  (method req = Api.GET ∧ path req = ["api"; "backup"; "history"]).

Definition isLogin (req : Request) : Prop :=
  method req = Api.POST ∧ path req = ["test"; "login"].

#[global] Instance isLogin_dec (req : Request) : Decision (isLogin req).
Proof. unfold isLogin. apply _. Defined.

End Backup.

(** ** What the stores keep true *)

Module Inv.

(** The keys of the four maps, one kind after the other. *)
Definition keysOf (ms : Kind → JsMap.t JsObject) : list string :=
  (JsMap.keys (ms Shop) ++ JsMap.keys (ms Driver)
   ++ JsMap.keys (ms Route) ++ JsMap.keys (ms Target))%list.

(** [key] is one of the ids made of the counter values [1..c]. *)
Definition issued (mkId : nat → string) (c : nat) (key : string) : Prop :=
  ∃ i, (1 ≤ i ≤ c)%nat ∧ key = mkId i.

(** No key is in two places, and every key was issued. *)
Definition wfKeys (mkId : nat → string) (c : nat) (ms : Kind → JsMap.t JsObject) : Prop :=
  NoDup (keysOf ms) ∧ ∀ key, key ∈ keysOf ms → issued mkId c key.

(** The storage layer. *)
Definition storageKey (n : nat) : string := "test-id-" +:+ pretty n.

Definition storageWf (st : MemStorage.TestMemStorage) : Prop :=
  wfKeys storageKey (MemStorage.idCounter st) (fun k => MemStorage.coll k st).

(** Every record is stored under the id it shows. *)
Definition idConsistent (st : MemStorage.TestMemStorage) : Prop :=
  ∀ k id x, MemStorage.get k id st = Some x → x !! "id" = Some (JStr id).

(** A call that does not patch the [id] field. *)
Definition keepsId (c : MemStorage.Call) : Prop :=
  match c with
  | MemStorage.CUpdate _ _ updates => Js.ownProps updates !! "id" = None
  | _ => True
  end.

(** The HTTP application. *)
Definition apiKey (n : nat) : string := "test-" +:+ pretty n.

Definition apiWf (st : Api.Store) : Prop :=
  wfKeys apiKey (Api.idCounter st) (fun k => Api.coll k st).

(** The ids shown by the 201 answers, oldest first. *)
Definition createdIds (resps : list Api.Response) : list JsVal :=
  Api.idOf <$> filter (fun r => Api.status r = 201%nat) resps.

(** The body has no [id] of its own. *)
Definition noId (req : Api.Request) : Prop := Js.ownProps (Api.body req) !! "id" = None.

(** What a create handler puts in a record besides the id. *)
Definition defaults (k : Kind) : JsObject :=
  match k with
  | Shop => ∅
  | Driver => {["status" := JStr "available"]}
  | Route => <["status" := JStr "planned"]> {["shopIds" := JArr []]}
  | Target => <["completedShops" := JNum 0]> {["completedDeliveries" := JNum 0]}
  end.

(** The record a create handler makes of an accepted body: the body over
    the generated id and the defaults of the kind. *)
Definition made (k : Kind) (b : JsVal) (st : Api.Store) : JsObject :=
  Js.ownProps b ∪ <["id" := JStr (apiKey (S (Api.idCounter st)))]> (defaults k).

End Inv.

(** * Properties *)

(** ** Maps *)

Section JsMapFacts.
Context {V : Type}.
Implicit Types (m : JsMap.t V) (k : string) (v : V).

Lemma get_set_eq m k v : JsMap.get k (JsMap.set k v m) = Some v.
Proof.
  induction m as [|[k' v'] m IH]; simpl.
  - by rewrite decide_True.
  - destruct (decide (k = k')) as [->|Hne]; simpl.
    + by rewrite decide_True.
    + by rewrite decide_False.
Qed.

Lemma get_set_ne m k k' v :
  k ≠ k' → JsMap.get k' (JsMap.set k v m) = JsMap.get k' m.
Proof.
  intros Hne. induction m as [|[k0 v0] m IH]; simpl.
  - rewrite decide_False; [done | congruence].
  - destruct (decide (k = k0)) as [->|Hk]; simpl.
    + by rewrite !decide_False by congruence.
    + destruct (decide (k' = k0)); [done | apply IH].
Qed.

Lemma get_remove_eq m k : JsMap.get k (JsMap.remove k m) = None.
Proof.
  unfold JsMap.remove, JsMap.t in *. induction m as [|[k' v'] m IH]; [done|].
  rewrite filter_cons. simpl. destruct (decide (k' ≠ k)) as [Hne|Heq]; simpl.
  - rewrite decide_False; [apply IH | congruence].
  - apply IH.
Qed.

Lemma get_remove_ne m k k' :
  k ≠ k' → JsMap.get k' (JsMap.remove k m) = JsMap.get k' m.
Proof.
  intros Hne. unfold JsMap.remove, JsMap.t in *. induction m as [|[k0 v0] m IH]; [done|].
  rewrite filter_cons. simpl. destruct (decide (k0 ≠ k)) as [Hk|Hk]; simpl.
  - by rewrite IH.
  - apply dec_stable in Hk. subst k0. rewrite decide_False by congruence. apply IH.
Qed.

Lemma remove_absent m k : JsMap.get k m = None → JsMap.remove k m = m.
Proof.
  unfold JsMap.remove, JsMap.t in *. induction m as [|[k' v'] m IH]; [done|]. simpl.
  destruct (decide (k = k')) as [->|Hne]; [done|]. intros Hget.
  rewrite filter_cons. simpl. rewrite decide_True by congruence.
  by rewrite IH.
Qed.

Lemma size_remove_le m k : (JsMap.size (JsMap.remove k m) ≤ JsMap.size m)%nat.
Proof. unfold JsMap.remove, JsMap.size, JsMap.t in *. apply length_filter. Qed.

Lemma size_remove_lt m k :
  is_Some (JsMap.get k m) → (JsMap.size (JsMap.remove k m) < JsMap.size m)%nat.
Proof.
  unfold JsMap.remove, JsMap.size, JsMap.t in *. induction m as [|[k' v'] m IH]; simpl.
  - by intros [? ?].
  - rewrite filter_cons. simpl. destruct (decide (k = k')) as [->|Hne].
    + intros _. rewrite decide_False by (intros H; by apply H).
      pose proof (length_filter (fun p : string * V => p.1 ≠ k') m). lia.
    + intros Hs. rewrite decide_True by congruence. simpl. apply IH in Hs. lia.
Qed.

Lemma has_true m k : JsMap.has k m = true ↔ is_Some (JsMap.get k m).
Proof.
  unfold JsMap.has. destruct (JsMap.get k m); split; try done; by eauto.
Qed.

(** [set] and [remove] keep the keys of a map distinct. *)
Lemma keys_set m k v k0 :
  k0 ∈ JsMap.keys (JsMap.set k v m) → k0 = k ∨ k0 ∈ JsMap.keys m.
Proof.
  unfold JsMap.keys, JsMap.t in *. induction m as [|[k' v'] m IH]; simpl.
  - intros ->%list_elem_of_singleton. by left.
  - destruct (decide (k = k')) as [->|Hne]; simpl.
    + intros [->|?]%elem_of_cons; [by left | right; by right].
    + intros [->|[->|?]%IH]%elem_of_cons; [right; by left | by left | right; by right].
Qed.

Lemma keys_set_NoDup m k v :
  NoDup (JsMap.keys m) → NoDup (JsMap.keys (JsMap.set k v m)).
Proof.
  induction m as [|[k' v'] m IH]; simpl.
  - intros _. apply NoDup_singleton.
  - intros [Hk' Hnd]%NoDup_cons. destruct (decide (k = k')) as [->|Hne]; simpl.
    + by apply NoDup_cons.
    + apply NoDup_cons. split; [|by apply IH].
      intros [->|?]%keys_set; [done | by apply Hk'].
Qed.

Lemma keys_remove_NoDup m k :
  NoDup (JsMap.keys m) → NoDup (JsMap.keys (JsMap.remove k m)).
Proof.
  unfold JsMap.keys, JsMap.remove, JsMap.t in *. intros Hnd.
  induction m as [|[k' v'] m IH]; [done|].
  apply NoDup_cons in Hnd as [Hk' Hnd]. rewrite filter_cons. simpl.
  destruct (decide (k' ≠ k)); [|by apply IH]. simpl.
  apply NoDup_cons. split; [|by apply IH].
  intros Hin. apply Hk'. apply list_elem_of_fmap in Hin as ([k0 v0] & -> & Hin).
  apply list_elem_of_fmap. exists (k0, v0). split; [done|].
  by apply list_elem_of_filter in Hin as [_ ?].
Qed.

Lemma has_remove m k : JsMap.has k (JsMap.remove k m) = false.
Proof. unfold JsMap.has. by rewrite get_remove_eq. Qed.

Lemma remove_remove m k : JsMap.remove k (JsMap.remove k m) = JsMap.remove k m.
Proof. apply remove_absent, get_remove_eq. Qed.
End JsMapFacts.

(** ** The storage layer *)

Section StorageFacts.
Import MemStorage.
Implicit Types (k : Kind) (st : TestMemStorage) (id : string).

Lemma coll_with_coll k m st : coll k (with_coll k m st) = m.
Proof. by destruct k. Qed.

Lemma coll_with_coll_ne k k' m st : k ≠ k' → coll k' (with_coll k m st) = coll k' st.
Proof. by destruct k, k'. Qed.

Lemma with_coll_same k st : with_coll k (coll k st) st = st.
Proof. by destruct k, st. Qed.

Lemma with_coll_twice k m m' st : with_coll k m (with_coll k m' st) = with_coll k m st.
Proof. by destruct k. Qed.

Lemma idCounter_with_coll k m st : idCounter (with_coll k m st) = idCounter st.
Proof. by destruct k. Qed.

Lemma coll_genId k st : coll k (genId st).2 = coll k st.
Proof. by destruct k. Qed.

Lemma idCounter_create k data st :
  idCounter (create k data st).2 = S (idCounter st).
Proof. unfold create. simpl. by rewrite idCounter_with_coll. Qed.

Lemma idCounter_update k id updates st :
  idCounter (update k id updates st).2 = idCounter st.
Proof.
  unfold update. destruct (JsMap.get id (coll k st)); simpl; [|done].
  by rewrite idCounter_with_coll.
Qed.

Lemma idCounter_delete k id st : idCounter (delete k id st).2 = idCounter st.
Proof. unfold delete. simpl. by rewrite idCounter_with_coll. Qed.

Lemma create_id k data st :
  idOf (create k data st).1 = JStr ("test-id-" +:+ pretty (S (idCounter st))).
Proof. unfold create, idOf. simpl. by rewrite lookup_insert_eq. Qed.
End StorageFacts.

Section StorageClaims.
Import MemStorage.
Implicit Types (k : Kind) (st : TestMemStorage) (id : string).

(** C2.  For every kind, store and patch, [update] on an id that is not
    stored returns absent ([None]) and the store it leaves is the store it
    was given: nothing added, removed or changed. *)
Theorem update_unknown_id k id (updates : JsVal) st :
  get k id st = None → update k id updates st = (None, st).
Proof. unfold get, update. by intros ->. Qed.

Lemma update_unknown_id_witness :
  get Shop "fake-id" new = None ∧
  updateShop "fake-id" (JObj Samples.patchName) new = (None, new).
Proof.
  split; [reflexivity|].
  apply (update_unknown_id Shop "fake-id" (JObj Samples.patchName) new).
  reflexivity.
Defined.

(** C3.  For a stored record [x] and a patch whose keys are among the
    fields of [x], [update] returns the shallow merge of the patch over
    [x]: a field the patch does not have keeps the value it has in [x], a
    field of the patch takes the patch's value, no field is added, the
    record returned is the one [get] returns afterwards, and no other
    record and no counter is touched. *)
Theorem update_merges k id (updates : JsVal) st (x : JsObject) :
  get k id st = Some x →
  dom (Js.ownProps updates) ⊆ dom x →
  ∃ updated st',
    update k id updates st = (Some updated, st') ∧
    (∀ f, Js.ownProps updates !! f = None → updated !! f = x !! f) ∧
    (∀ f v, Js.ownProps updates !! f = Some v → updated !! f = Some v) ∧
    dom updated = dom x ∧
    get k id st' = Some updated ∧
    (∀ k' id', (k', id') ≠ (k, id) → get k' id' st' = get k' id' st) ∧
    idCounter st' = idCounter st.
Proof.
  intros Hget Hdom. unfold get, update in *. rewrite Hget.
  eexists _, _. split; [reflexivity|]. unfold Js.spread.
  repeat split.
  - intros f Hf. by apply lookup_union_r.
  - intros f v Hf. by apply lookup_union_Some_l.
  - rewrite dom_union_L. by apply subseteq_union_1_L.
  - by rewrite coll_with_coll, get_set_eq.
  - intros k' id' Hne. destruct (decide (k = k')) as [<-|Hk].
    + rewrite coll_with_coll. apply get_set_ne. congruence.
    + by rewrite coll_with_coll_ne.
  - apply idCounter_with_coll.
Qed.

Lemma update_merges_witness :
  get Shop "test-id-1" (createShop (JObj Samples.shopOld) new).2
  = Some (<["id" := JStr "test-id-1"]> Samples.shopOld) ∧
  dom (Js.ownProps (JObj Samples.patchName))
    ⊆ dom (<["id" := JStr "test-id-1"]> Samples.shopOld) ∧
  ∃ updated st',
    updateShop "test-id-1" (JObj Samples.patchName)
               (createShop (JObj Samples.shopOld) new).2 = (Some updated, st') ∧
    updated !! "name" = Some (JStr "New Name") ∧
    updated !! "latitude" = Some (JNum (-125 # 100)) ∧
    getShop "test-id-1" st' = Some updated.
Proof.
  assert (dom (Js.ownProps (JObj Samples.patchName))
            ⊆ dom (<["id" := JStr "test-id-1"]> Samples.shopOld)) as Hdom.
  { unfold Samples.patchName, Samples.shopOld. simpl.
    rewrite !dom_insert_L, !dom_singleton_L. set_solver. }
  split; [reflexivity|]. split; [exact Hdom|].
  destruct (update_merges Shop "test-id-1" (JObj Samples.patchName)
              (createShop (JObj Samples.shopOld) new).2
              (<["id" := JStr "test-id-1"]> Samples.shopOld) eq_refl Hdom)
    as (updated & st' & Hup & Hkeep & Hnew & _ & Hget & _).
  exists updated, st'. repeat split; [exact Hup | | | exact Hget].
  - by apply Hnew.
  - by rewrite Hkeep.
Defined.

(** C4.  For every kind and id, [delete] answers [true] exactly when a
    record with that id was stored; afterwards the id is not stored and the
    other records are as before; a second [delete] of the same id answers
    [false] and leaves the store, hence the number of records of every
    kind, as it is. *)
Theorem delete_twice k id st :
  ((delete k id st).1 = true ↔ is_Some (get k id st)) ∧
  get k id (delete k id st).2 = None ∧
  (∀ k' id', (k', id') ≠ (k, id) →
             get k' id' (delete k id st).2 = get k' id' st) ∧
  (is_Some (get k id st) →
   (JsMap.size (coll k (delete k id st).2) < JsMap.size (coll k st))%nat) ∧
  (delete k id (delete k id st).2).1 = false ∧
  (delete k id (delete k id st).2).2 = (delete k id st).2 ∧
  (∀ k', JsMap.size (coll k' (delete k id (delete k id st).2).2)
         = JsMap.size (coll k' (delete k id st).2)).
Proof.
  unfold delete, get, JsMap.delete. simpl.
  assert (Hsame : with_coll k (JsMap.remove id (coll k (with_coll k (JsMap.remove id (coll k st)) st)))
                    (with_coll k (JsMap.remove id (coll k st)) st)
                  = with_coll k (JsMap.remove id (coll k st)) st).
  { by rewrite coll_with_coll, remove_remove, with_coll_twice. }
  repeat split.
  - by intros ?%has_true.
  - by intros ?%has_true.
  - rewrite coll_with_coll. apply get_remove_eq.
  - intros k' id' Hne. destruct (decide (k = k')) as [<-|Hk].
    + rewrite coll_with_coll. apply get_remove_ne. congruence.
    + by rewrite coll_with_coll_ne.
  - intros Hs. rewrite coll_with_coll. by apply size_remove_lt.
  - rewrite coll_with_coll. apply has_remove.
  - exact Hsame.
  - intros k'. by rewrite Hsame.
Qed.

(** C10.  At the storage layer, for every kind, [create] returns
    [{ ...data, id }] with [id] the identifier just generated from the
    counter, whatever [id] field [data] has, and stores that record under
    that identifier; the other fields are those of [data].  The HTTP create
    handlers spread the request body after the generated id, so there a
    created record shows the [id] of the body when the body has one. *)
Theorem create_overrides_caller_id k (data : JsVal) st :
  let id := "test-id-" +:+ pretty (S (idCounter st)) in
  let x := (create k data st).1 in
  x !! "id" = Some (JStr id) ∧
  get k id (create k data st).2 = Some x ∧
  (∀ f, f ≠ "id" → x !! f = Js.ownProps data !! f) ∧
  (∀ (b : JsVal) (s : Api.Store) (v : JsVal),
      Js.ownProps b !! "id" = Some v →
      Api.status (Api.post k b s).1 = 201 →
      Api.idOf (Api.post k b s).1 = v).
Proof.
  unfold create, get. simpl. repeat split.
  - apply lookup_insert_eq.
  - by rewrite coll_with_coll, get_set_eq.
  - intros f Hf. by apply lookup_insert_ne.
  - intros b s v Hv.
    destruct k; simpl; unfold Api.post_shops, Api.post_drivers, Api.post_routes,
      Api.post_targets;
      (match goal with |- context [if ?c then _ else _] => destruct c end);
      simpl; try discriminate; intros _; unfold Api.idOf, Js.spread; simpl;
      by erewrite lookup_union_Some_l.
Qed.

Lemma create_overrides_caller_id_witness :
  (createShop (JObj Samples.shopWithId) new).1 !! "id" = Some (JStr "test-id-1").
Proof.
  exact (proj1 (create_overrides_caller_id Shop (JObj Samples.shopWithId) new)).
Defined.
End StorageClaims.

Section StorageIds.
Import MemStorage.
Implicit Types (st : TestMemStorage) (cs : list Call).

Lemma storageId_inj : Inj (=) (=) storageId.
Proof.
  intros n n' H. unfold storageId in H. injection H as H.
  by apply (inj pretty).
Qed.

Lemma call_ids c st :
  ((call c st).1 = [] ∧ idCounter (call c st).2 = idCounter st) ∨
  ((call c st).1 = [storageId (S (idCounter st))] ∧
   idCounter (call c st).2 = S (idCounter st)).
Proof.
  destruct c as [k data|k id updates|k id]; unfold call.
  - right. pose proof (create_id k data st) as Hid.
    pose proof (idCounter_create k data st) as Hc.
    destruct (create k data st) as [x st']. simpl in *. by rewrite Hid, Hc.
  - left. split; [done | apply idCounter_update].
  - left. split; [done | apply idCounter_delete].
Qed.

(** The ids a sequence of calls returns are the ones numbered from the
    counter on, one per [create], whatever is deleted or updated in
    between. *)
Lemma run_ids cs st :
  ∃ n, (run cs st).1 = storageId <$> seq (S (idCounter st)) n ∧
       idCounter (run cs st).2 = (idCounter st + n)%nat.
Proof.
  revert st. induction cs as [|c cs IH]; intros st; simpl.
  - exists 0%nat. split; [done | lia].
  - destruct (call_ids c st) as [[Hids Hc]|[Hids Hc]];
      destruct (call c st) as [ids st1]; simpl in *;
      destruct (IH st1) as (n & Hrun & Hn);
      destruct (run cs st1) as [ids' st2]; simpl in *; subst ids ids'.
    + exists n. rewrite Hc. split; [done | lia].
    + exists (S n). rewrite Hc. simpl. split; [done | lia].
Qed.

(** On the storage layer the ids returned by [create] are pairwise
    distinct over any sequence of calls, from any state of the store. *)
Lemma storage_ids_distinct cs st : NoDup (run cs st).1.
Proof.
  destruct (run_ids cs st) as (n & -> & _).
  apply (NoDup_fmap_2 _ (Inj0 := storageId_inj)), NoDup_seq.
Qed.
End StorageIds.

(** ** The validation layer *)

Section ZodFacts.
Import Zod.
Implicit Types (s : Schema) (p : list Seg) (v : JsVal) (o : JsObject)
  (shape : ObjectSchema).

Lemma parse_numeric_rejects s p v :
  numeric s = true → nonNumber v = true → success (parse s p v) = false.
Proof. induction s; destruct v; simpl; try done; auto. Qed.

Lemma parse_integral_rejects s p q :
  integral s = true → Js.isInteger q = false → success (parse s p (JNum q)) = false.
Proof.
  induction s; simpl; try done; auto.
  intros -> ->. done.
Qed.

(** A failure names at least one violation. *)
Lemma parse_Err_nonempty s p v iss : parse s p v = Err iss → iss ≠ [].
Proof.
  revert p v. induction s as [min|int|elem IH|inner IH|inner IH|inner IH d];
    intros p v; simpl.
  - destruct v; try (by intros [= <-]).
    destruct min as [n|]; [|done]. by destruct (_ <? _)%nat; intros [= <-].
  - destruct v; try (by intros [= <-]).
    by destruct (_ && _); intros [= <-].
  - destruct v; try (by intros [= <-]).
    by destruct (concat _); intros [= <-].
  - destruct v; try done; apply IH.
  - destruct v; try done; apply IH.
  - destruct v; apply IH.
Qed.

(** Every violation is reported at or below the path of the field. *)
Lemma parse_issue_path s p v i : i ∈ issuesOf (parse s p v) → p `prefix_of` path i.
Proof.
  revert p v. induction s as [min|int|elem IH|inner IH|inner IH|inner IH d];
    intros p v; simpl.
  - destruct v; simpl; try (by intros ->%list_elem_of_singleton).
    destruct min as [n|]; simpl; [|by intros ?%elem_of_nil].
    destruct (_ <? _)%nat; simpl; [by intros ->%list_elem_of_singleton|].
    by intros ?%elem_of_nil.
  - destruct v; simpl; try (by intros ->%list_elem_of_singleton).
    destruct (_ && _); simpl; [by intros ->%list_elem_of_singleton|].
    by intros ?%elem_of_nil.
  - destruct v; simpl; try (by intros ->%list_elem_of_singleton).
    destruct (concat _) as [|i0 iss] eqn:Hc; simpl; [by intros ?%elem_of_nil|].
    rewrite <- Hc. intros Hi.
    apply list_elem_of_In, in_concat in Hi as (l' & Hl' & Hi).
    apply list_elem_of_In, list_elem_of_fmap in Hl' as (r & -> & Hr).
    apply elem_of_lookup_imap in Hr as (j & x & -> & _).
    apply list_elem_of_In, IH in Hi.
    etrans; [|exact Hi]. by apply prefix_app_r.
  - destruct v; simpl; try apply IH. by intros ?%elem_of_nil.
  - destruct v; simpl; try apply IH. by intros ?%elem_of_nil.
  - destruct v; simpl; apply IH.
Qed.

Lemma parse_fails_issues s p v :
  success (parse s p v) = false ↔ issuesOf (parse s p v) ≠ [].
Proof.
  destruct (parse s p v) as [a|iss] eqn:E; simpl; split; try done.
  intros _. by eapply parse_Err_nonempty.
Qed.

(** The violations of an object are those of its fields, in the order of
    the schema. *)
Lemma parseShape_issues shape o :
  (parseShape shape o).1
  = concat ((fun ks => issuesOf (parse ks.2 [Key ks.1] (field ks.1 o))) <$> shape).
Proof.
  induction shape as [|[k s] shape IH]; [done|]. simpl. fold (field k o).
  destruct (parseShape shape o) as [iss out]. simpl in IH. subst iss.
  by destruct (parse s [Key k] (field k o)).
Qed.

Lemma reported_iff shape o k :
  reported k (parseShape shape o).1 ↔
  ∃ s, (k, s) ∈ shape ∧ success (parse s [Key k] (field k o)) = false.
Proof.
  rewrite parseShape_issues. unfold reported. split.
  - intros (i & Hi & Hhead).
    apply list_elem_of_In, in_concat in Hi as (l' & Hl' & Hi).
    apply list_elem_of_In, list_elem_of_fmap in Hl' as ([k' s] & -> & Hks).
    simpl in Hi. apply list_elem_of_In in Hi.
    pose proof (parse_issue_path _ _ _ _ Hi) as [rest Hp].
    rewrite Hp in Hhead. simpl in Hhead. injection Hhead as <-.
    exists s. split; [done|]. apply parse_fails_issues.
    intros Hnil. rewrite Hnil in Hi. by apply elem_of_nil in Hi.
  - intros (s & Hks & Hfail). apply parse_fails_issues in Hfail.
    destruct (issuesOf (parse s [Key k] (field k o))) as [|i iss] eqn:E; [done|].
    exists i. split.
    + apply list_elem_of_In, in_concat. exists (i :: iss). split.
      * apply list_elem_of_In, list_elem_of_fmap. exists (k, s). by rewrite <- E.
      * by left.
    + assert (Hi : i ∈ issuesOf (parse s [Key k] (field k o))) by (rewrite E; by left).
      apply parse_issue_path in Hi as [rest ->]. done.
Qed.

(** The fields written to a normalized record. *)
Lemma parseShape_dom shape o f :
  f ∈ dom (parseShape shape o).2 → f ∈ shape.*1.
Proof.
  induction shape as [|[k s] shape IH]; simpl.
  - by rewrite dom_empty_L.
  - fold (field k o). destruct (parseShape shape o) as [iss out]. simpl in *.
    destruct (parse s [Key k] (field k o)) as [v|iss']; simpl.
    + unfold emit. intros Hf.
      assert (f ∈ dom (<[k:=v]> out) → f ∈ k :: shape.*1) as Hins.
      { rewrite dom_insert_L. intros [->%elem_of_singleton|?]%elem_of_union;
          [by left | right; auto]. }
      destruct v, (o !! k); auto; right; auto.
    + intros ?. right. auto.
Qed.

Lemma parseShape_lookup shape o k s v :
  NoDup shape.*1 → (k, s) ∈ shape → parse s [Key k] (field k o) = Ok v →
  (parseShape shape o).2 !! k
  = match v, o !! k with JUndefined, None => None | _, _ => Some v end.
Proof.
  induction shape as [|[k' s'] shape IH]; simpl; [by intros _ ?%elem_of_nil|].
  intros [Hk' Hnd]%NoDup_cons Hin Hok. fold (field k' o).
  pose proof (parseShape_dom shape o) as Hdom.
  destruct (parseShape shape o) as [iss out]. simpl in *.
  apply elem_of_cons in Hin as [[= <- <-]|Hin].
  - rewrite Hok. simpl. unfold emit.
    assert (out !! k = None) as Hnone.
    { apply not_elem_of_dom. intros ?%Hdom. done. }
    destruct v, (o !! k); by rewrite ?lookup_insert_eq.
  - assert (k ≠ k') as Hne.
    { intros ->. apply Hk'. apply list_elem_of_fmap. by exists (k', s). }
    specialize (IH Hnd Hin Hok).
    destruct (parse s' [Key k'] (field k' o)) as [v'|iss']; simpl; [|done].
    unfold emit. destruct v', (o !! k'); by rewrite ?lookup_insert_ne.
Qed.

Lemma insertSchema_NoDup k : NoDup (insertSchema k).*1.
Proof. destruct k; apply (bool_decide_unpack _); by vm_compute. Qed.
End ZodFacts.

Section ValidationClaims.
Import Zod.

Lemma shape_field_unique (shape : ObjectSchema) f s s' :
  NoDup shape.*1 → (f, s) ∈ shape → (f, s') ∈ shape → s = s'.
Proof.
  induction shape as [|[k0 s0] shape IH]; simpl; [by intros _ ?%elem_of_nil|].
  intros [Hk Hnd]%NoDup_cons [[= -> ->]|H1]%elem_of_cons [[= ?]|H2]%elem_of_cons;
    subst; auto.
  - destruct Hk. apply list_elem_of_fmap. by exists (k0, s').
  - destruct Hk. apply list_elem_of_fmap. by exists (k0, s).
Qed.

(** The numeric and the integer fields of the four schemas. *)
Lemma numeric_fields :
  (List.filter (fun ks => numeric ks.2) insertShopSchema).*1
  = ["latitude"; "longitude"] ∧
  (List.filter (fun ks => numeric ks.2) insertDriverSchema).*1
  = ["currentLatitude"; "currentLongitude"] ∧
  (List.filter (fun ks => numeric ks.2) insertRouteSchema).*1
  = ["estimatedDistance"; "estimatedTime"] ∧
  (List.filter (fun ks => numeric ks.2) insertTargetSchema).*1
  = ["targetShops"; "targetDeliveries"; "completedShops"; "completedDeliveries"] ∧
  (List.filter (fun ks => integral ks.2) insertTargetSchema).*1
  = ["targetShops"; "targetDeliveries"; "completedShops"; "completedDeliveries"] ∧
  (∀ k, k ≠ Target → List.filter (fun ks => integral ks.2) (insertSchema k) = []).
Proof. repeat split; try reflexivity. by intros []. Qed.

(** A field that violates its constraint makes the whole object fail, and
    is among the violations reported. *)
Lemma safeParse_field_fails (shape : ObjectSchema) o f s :
  (f, s) ∈ shape → success (parse s [Key f] (field f o)) = false →
  ∃ iss, safeParse shape (JObj o) = Err iss ∧ reported f iss.
Proof.
  intros Hin Hfail.
  assert (reported f (parseShape shape o).1) as Hrep by (apply reported_iff; eauto).
  unfold safeParse. destruct (parseShape shape o) as [iss out]. simpl in *.
  destruct iss as [|i iss]; [|by eauto].
  destruct Hrep as (i & ?%elem_of_nil & _). done.
Qed.

(** C5.  The shop [{name:"X", latitude:-1.26, longitude:36.86}] passes
    [insertShopSchema] and its normalized record is the input with
    [category: "retail"] and [status: "active"] filled in; the same input
    without [name] fails, on [name]; the driver
    [{name:"D", phone:"+254700000000"}] fails [insertDriverSchema], on
    [vehicleType]. *)
Theorem validation_examples :
  safeParse insertShopSchema (JObj Samples.shopX)
  = Ok (<["category" := JStr "retail"]> (<["status" := JStr "active"]> Samples.shopX)) ∧
  safeParse insertShopSchema (JObj Samples.shopNoName)
  = Err [mkIssue invalid_type [Key "name"]] ∧
  safeParse insertDriverSchema (JObj Samples.driverD)
  = Err [mkIssue invalid_type [Key "vehicleType"]].
Proof. repeat split; vm_compute; reflexivity. Qed.

(** The guards of the create handlers look at presence only. *)
Lemma post_shops_status b st :
  Api.status (Api.post_shops b st).1
  = if negb (Js.truthy (Js.getProp "name" b))
       || Js.nullish (Js.getProp "latitude" b)
       || Js.nullish (Js.getProp "longitude" b)
    then 400%nat else 201%nat.
Proof. unfold Api.post_shops. by destruct (_ || _). Qed.

Lemma post_targets_status b st :
  Api.status (Api.post_targets b st).1
  = if negb (Js.truthy (Js.getProp "driverId" b))
       || negb (Js.truthy (Js.getProp "period" b))
       || Js.nullish (Js.getProp "targetShops" b)
       || Js.nullish (Js.getProp "targetDeliveries" b)
       || negb (Js.truthy (Js.getProp "startDate" b))
       || negb (Js.truthy (Js.getProp "endDate" b))
    then 400%nat else 201%nat.
Proof. unfold Api.post_targets. by destruct (_ || _). Qed.

(** C6, as the code has it.  Schema validation rejects, in every input
    object and for every numeric field of the four insert schemas, a
    supplied value that is not a number (a numeric-looking string as much
    as any other string, a boolean, an array, an object), and for every
    integer field a number with a fractional part; the field is among the
    violations reported.  The guard of the HTTP create handlers is not that
    validation: it answers 201 as soon as the required fields are present
    (truthy, or not null for the numbers), whatever their type. *)
Theorem validation_types :
  (∀ k f s (o : JsObject) v,
      (f, s) ∈ insertSchema k → o !! f = Some v →
      (numeric s = true → nonNumber v = true →
       ∃ iss, safeParse (insertSchema k) (JObj o) = Err iss ∧ reported f iss) ∧
      (integral s = true → ∀ q, v = JNum q → Js.isInteger q = false →
       ∃ iss, safeParse (insertSchema k) (JObj o) = Err iss ∧ reported f iss)) ∧
  (∀ b st,
      Js.truthy (Js.getProp "name" b) = true →
      Js.nullish (Js.getProp "latitude" b) = false →
      Js.nullish (Js.getProp "longitude" b) = false →
      Api.status (Api.post_shops b st).1 = 201%nat) ∧
  (∀ b st,
      Js.truthy (Js.getProp "driverId" b) = true →
      Js.truthy (Js.getProp "period" b) = true →
      Js.nullish (Js.getProp "targetShops" b) = false →
      Js.nullish (Js.getProp "targetDeliveries" b) = false →
      Js.truthy (Js.getProp "startDate" b) = true →
      Js.truthy (Js.getProp "endDate" b) = true →
      Api.status (Api.post_targets b st).1 = 201%nat).
Proof.
  split; [|split].
  - intros k f s o v Hin Hv. split.
    + intros Hnum Hnon. apply (safeParse_field_fails _ o f s Hin).
      unfold field. rewrite Hv. simpl. by apply parse_numeric_rejects.
    + intros Hint q -> Hq. apply (safeParse_field_fails _ o f s Hin).
      unfold field. rewrite Hv. simpl. by apply parse_integral_rejects.
  - intros b st H1 H2 H3. by rewrite post_shops_status, H1, H2, H3.
  - intros b st H1 H2 H3 H4 H5 H6.
    by rewrite post_targets_status, H1, H2, H3, H4, H5, H6.
Qed.

Lemma validation_types_witness :
  (∃ iss, safeParse insertShopSchema (JObj Samples.shopNumericString) = Err iss
          ∧ reported "latitude" iss) ∧
  (∃ iss, safeParse insertTargetSchema (JObj Samples.targetFractional) = Err iss
          ∧ reported "targetShops" iss).
Proof.
  split.
  - refine (proj1 (proj1 validation_types Shop "latitude" (ZNumber false)
                     Samples.shopNumericString (JStr "-1.26") _ _) _ _);
      [by repeat constructor | reflexivity..].
  - refine (proj2 (proj1 validation_types Target "targetShops" (ZNumber true)
                     Samples.targetFractional (JNum (105 # 10)) _ _) _ _ _ _);
      [by repeat constructor | reflexivity..].
Defined.

(** The create handler of the HTTP surface accepts what the schemas
    reject: a shop whose latitude is a string, a target whose [targetShops]
    is 10.5. *)
Lemma post_accepts_mistyped_fields :
  Api.status (Api.post_shops (JObj Samples.shopBadCoords) Api.createTestApp).1 = 201%nat ∧
  Api.status (Api.post_shops (JObj Samples.shopNumericString) Api.createTestApp).1 = 201%nat ∧
  Api.status (Api.post_targets (JObj Samples.targetFractional) Api.createTestApp).1 = 201%nat ∧
  JsMap.values (Api.shops (Api.post_shops (JObj Samples.shopBadCoords) Api.createTestApp).2)
  = [<["id" := JStr "test-1"]> Samples.shopBadCoords].
Proof. repeat split; vm_compute; reflexivity. Qed.
End ValidationClaims.

Section ReportingClaims.
Import Zod.

Lemma post_answers k b st :
  (Api.post k b st).1 = Api.mkResponse 400 (Some (Api.error (Api.invalidMessage k))) ∨
  Api.status (Api.post k b st).1 = 201%nat.
Proof.
  destruct k; simpl; unfold Api.post_shops, Api.post_drivers, Api.post_routes,
    Api.post_targets; destruct (_ || _); auto.
Qed.

(** C7, as the code has it.  For every raw input, schema validation
    returns either a normalized record or a failure.  The normalized
    record holds, for each field of the schema, the value the field parsed
    to (the default where the field was left out and has one), leaves out
    an optional field that was not supplied, and drops the fields the
    schema does not have.  The failure is not empty and reports a field
    exactly when that field violates its constraint, so every violated
    field is listed: the shop [{category: "retail"}] reports [name],
    [latitude] and [longitude].  The HTTP create handlers do not list
    violations: whatever is missing, the 400 answer is the one fixed
    message of the kind. *)
Theorem validation_reports_every_violation k (v : JsVal) :
  (match safeParse (insertSchema k) v with
   | Ok r =>
       ∃ o, v = JObj o ∧
         (∀ f s, (f, s) ∈ insertSchema k →
            ∃ vf, parse s [Key f] (field f o) = Ok vf ∧
                  r !! f = match vf, o !! f with
                           | JUndefined, None => None
                           | _, _ => Some vf
                           end) ∧
         (∀ f, f ∉ (insertSchema k).*1 → r !! f = None)
   | Err iss =>
       iss ≠ [] ∧
       ∀ o, v = JObj o → ∀ f s, (f, s) ∈ insertSchema k →
         (success (parse s [Key f] (field f o)) = false ↔ reported f iss)
   end) ∧
  safeParse insertShopSchema (JObj Samples.shopOnlyCategory)
  = Err [mkIssue invalid_type [Key "name"];
         mkIssue invalid_type [Key "latitude"];
         mkIssue invalid_type [Key "longitude"]] ∧
  (∀ b st, (Api.post k b st).1
           = Api.mkResponse 400 (Some (Api.error (Api.invalidMessage k))) ∨
           Api.status (Api.post k b st).1 = 201%nat).
Proof.
  split; [|split; [by vm_compute | apply post_answers]].
  pose proof (insertSchema_NoDup k) as Hnd.
  unfold safeParse. destruct v as [| | | | | |o]; try (split; [done|]; by intros o [=]).
  pose proof (reported_iff (insertSchema k) o) as Hrep.
  pose proof (parseShape_lookup (insertSchema k) o) as Hlook.
  pose proof (parseShape_dom (insertSchema k) o) as Hdom.
  destruct (parseShape (insertSchema k) o) as [[|i iss] out]; simpl in *.
  - exists o. split; [done|]. split.
    + intros f s Hin.
      destruct (parse s [Key f] (field f o)) as [vf|iss'] eqn:E.
      * exists vf. split; [done|]. by apply (Hlook f s).
      * assert (reported f []) as (i & ?%elem_of_nil & _); [|done].
        apply Hrep. exists s. by rewrite E.
    + intros f Hf. apply not_elem_of_dom. intros ?%Hdom. done.
  - split; [done|]. intros o' [= <-] f s Hin. rewrite Hrep. split.
    + by eauto.
    + intros (s' & Hin' & Hfail).
      by rewrite (shape_field_unique _ _ _ _ Hnd Hin Hin').
Qed.

Lemma validation_reports_every_violation_witness :
  let iss := [mkIssue invalid_type [Key "name"];
              mkIssue invalid_type [Key "latitude"];
              mkIssue invalid_type [Key "longitude"]] in
  safeParse insertShopSchema (JObj Samples.shopOnlyCategory) = Err iss ∧
  reported "name" iss ∧ reported "latitude" iss ∧ reported "longitude" iss.
Proof.
  intros iss.
  destruct (validation_reports_every_violation Shop (JObj Samples.shopOnlyCategory))
    as (H & E & _).
  change (insertSchema Shop) with insertShopSchema in H.
  rewrite E in H. destruct H as [_ H]. split; [exact E|]. repeat split.
  - apply (H _ eq_refl "name" (ZString (Some 1)));
      [by repeat constructor | reflexivity].
  - apply (H _ eq_refl "latitude" (ZNumber false));
      [by repeat constructor | reflexivity].
  - apply (H _ eq_refl "longitude" (ZNumber false));
      [by repeat constructor | reflexivity].
Defined.

(** The 400 answer of the shop handler is the same whether [name] alone
    or [name] and both coordinates are missing: it lists no violation. *)
Lemma post_shops_failure_is_generic :
  (Api.post_shops (JObj Samples.shopOnlyCategory) Api.createTestApp).1
  = Api.mkResponse 400 (Some (JObj {["error" := JStr "Invalid shop data"]})) ∧
  (Api.post_shops (JObj Samples.shopNoName) Api.createTestApp).1
  = Api.mkResponse 400 (Some (JObj {["error" := JStr "Invalid shop data"]})).
Proof. split; vm_compute; reflexivity. Qed.
End ReportingClaims.

(** ** The HTTP surface *)

Section ApiClaims.
Import Api.
Implicit Types (k : Kind) (st : Store) (now : string).

Lemma api_coll_with_coll k m st : coll k (with_coll k m st) = m.
Proof. by destruct k. Qed.

Lemma values_set_elem {V} (m : JsMap.t V) key (v : V) :
  v ∈ JsMap.values (JsMap.set key v m).
Proof.
  unfold JsMap.values, JsMap.t in *. induction m as [|[k' v'] m IH]; simpl.
  - by left.
  - destruct (decide (key = k')); simpl; [by left | by right].
Qed.

(** C1, the failing input.  Two [POST /api/shops] with the body
    [{id:"dup", name:"A", latitude:-1.26, longitude:36.86}] are both
    answered 201 with a record whose [id] is ["dup"]: the ids returned are
    not distinct.  The records are stored under the generated keys
    [test-1] and [test-2], and a [GET] of the id that was returned finds
    nothing. *)
Theorem post_shops_repeats_caller_id :
  let post := mkRequest POST ["api"; "shops"] (JObj Samples.shopWithId) in
  let served := serve "" [post; post] createTestApp in
  status <$> served.1 = [201; 201]%nat ∧
  idOf <$> served.1 = [JStr "dup"; JStr "dup"] ∧
  JsMap.keys (shops served.2) = ["test-1"; "test-2"] ∧
  status (handle "" (mkRequest GET ["api"; "shops"; "dup"] JUndefined) served.2).1
  = 404%nat.
Proof. repeat split; vm_compute; reflexivity. Qed.

(** A created route is in the list of the routes. *)
Lemma post_routes_listed b st :
  status (post_routes b st).1 = 201%nat →
  ∃ route rs,
    json (post_routes b st).1 = Some (JObj route) ∧
    get_routes (post_routes b st).2
    = (mkResponse 200 (Some (JArr rs)), (post_routes b st).2) ∧
    JObj route ∈ rs.
Proof.
  unfold post_routes, get_routes, list_json. destruct (_ || _); simpl; [done|].
  intros _. eexists _, _. repeat split.
  apply list_elem_of_fmap. eexists. split; [done|]. apply values_set_elem.
Qed.

(** C8, as the code has it.  From any state of the application,
    [POST /api/routes] with [{name:"R1", date:"2026-02-18"}] is answered
    201 with the record made of the generated id, [status: "planned"],
    [shopIds: []] and the two fields of the body; a following
    [GET /api/routes] is answered 200 with a list that has that same
    record; no handler is registered for a path [/api/routes/:id], so a
    GET, PATCH or DELETE (or any other request) of that id is answered 404
    and changes nothing. *)
Theorem route_lifecycle now st :
  let id := "test-" +:+ pretty (S (idCounter st)) in
  let route : JsObject :=
    <["id" := JStr id]>
      (<["status" := JStr "planned"]> (<["shopIds" := JArr []]> Samples.routeR1)) in
  let posted := handle now (mkRequest POST ["api"; "routes"] (JObj Samples.routeR1)) st in
  posted.1 = mkResponse 201 (Some (JObj route)) ∧
  route !! "status" = Some (JStr "planned") ∧
  route !! "shopIds" = Some (JArr []) ∧
  (∃ rs, handle now (mkRequest GET ["api"; "routes"] JUndefined) posted.2
         = (mkResponse 200 (Some (JArr rs)), posted.2) ∧
         JObj route ∈ rs) ∧
  (∀ m rid b, handle now (mkRequest m ["api"; "routes"; rid] b) posted.2
              = (mkResponse 404 None, posted.2)).
Proof.
  intros id route posted.
  assert (posted = post_routes (JObj Samples.routeR1) st) as Hposted by reflexivity.
  assert (posted.1 = mkResponse 201 (Some (JObj route))) as Hresp by reflexivity.
  split; [exact Hresp|]. split; [reflexivity|]. split; [reflexivity|]. split.
  - change (handle now (mkRequest GET ["api"; "routes"] JUndefined) posted.2)
      with (get_routes posted.2).
    destruct (post_routes_listed (JObj Samples.routeR1) st) as (r & rs & Hr & Hget & Hin);
      [reflexivity|].
    rewrite <- Hposted in *. rewrite Hresp in Hr. injection Hr as <-. eauto.
  - intros m rid b. by destruct m.
Qed.

(** After the route is posted to a fresh application, a GET of its id is
    not answered with the record, and neither a PATCH nor a DELETE of that
    id reaches it. *)
Lemma get_route_by_id_not_found :
  let posted :=
    handle "" (mkRequest POST ["api"; "routes"] (JObj Samples.routeR1)) createTestApp in
  idOf posted.1 = JStr "test-1" ∧
  handle "" (mkRequest GET ["api"; "routes"; "test-1"] JUndefined) posted.2
  = (mkResponse 404 None, posted.2) ∧
  handle "" (mkRequest PATCH ["api"; "routes"; "test-1"] (JObj Samples.patchStatus)) posted.2
  = (mkResponse 404 None, posted.2) ∧
  handle "" (mkRequest DELETE ["api"; "routes"; "test-1"] JUndefined) posted.2
  = (mkResponse 404 None, posted.2).
Proof. repeat split; vm_compute; reflexivity. Qed.

(** The lifecycle by id is what the shop handlers do: the record posted
    is the record read back, a patch changes the fields it names and no
    other, and after the delete the id is not found. *)
Lemma shop_lifecycle now st :
  let id := "test-" +:+ pretty (S (idCounter st)) in
  let shop : JsObject := <["id" := JStr id]> Samples.shopX in
  let patched : JsObject := <["name" := JStr "New Name"]> shop in
  let s1 := handle now (mkRequest POST ["api"; "shops"] (JObj Samples.shopX)) st in
  let s2 := handle now (mkRequest PATCH ["api"; "shops"; id] (JObj Samples.patchName)) s1.2 in
  let s3 := handle now (mkRequest DELETE ["api"; "shops"; id] JUndefined) s2.2 in
  s1.1 = mkResponse 201 (Some (JObj shop)) ∧
  handle now (mkRequest GET ["api"; "shops"; id] JUndefined) s1.2
  = (mkResponse 200 (Some (JObj shop)), s1.2) ∧
  s2.1 = mkResponse 200 (Some (JObj patched)) ∧
  handle now (mkRequest GET ["api"; "shops"; id] JUndefined) s2.2
  = (mkResponse 200 (Some (JObj patched)), s2.2) ∧
  s3.1 = mkResponse 204 None ∧
  (handle now (mkRequest GET ["api"; "shops"; id] JUndefined) s3.2).1
  = mkResponse 404 (Some (error "Shop not found")).
Proof.
  intros id shop patched s1 s2 s3.
  assert (s1 = (mkResponse 201 (Some (JObj shop)),
                with_coll Shop (JsMap.set id shop (shops st)) (genId st).2)) as H1
      by reflexivity.
  assert (∀ s, handle now (mkRequest GET ["api"; "shops"; id] JUndefined) s = get_shop id s)
    as Hget by reflexivity.
  assert (s2 = patch_shop id (JObj Samples.patchName) s1.2) as H2 by reflexivity.
  assert (s3 = delete_shop id s2.2) as H3 by reflexivity.
  assert (JsMap.get id (shops s1.2) = Some shop) as Hs1.
  { rewrite H1. simpl. apply get_set_eq. }
  assert (s2 = (mkResponse 200 (Some (JObj patched)),
                with_coll Shop (JsMap.set id patched (shops s1.2)) s1.2)) as H2'.
  { rewrite H2. unfold patch_shop. rewrite Hs1. reflexivity. }
  assert (JsMap.get id (shops s2.2) = Some patched) as Hs2.
  { rewrite H2'. simpl. apply get_set_eq. }
  assert (s3 = (mkResponse 204 None,
                with_coll Shop (JsMap.remove id (shops s2.2)) s2.2)) as H3'.
  { rewrite H3. unfold delete_shop, JsMap.has. rewrite Hs2. reflexivity. }
  split; [by rewrite H1|].
  split; [rewrite Hget; unfold get_shop; by rewrite Hs1|].
  split; [by rewrite H2'|].
  split; [rewrite Hget; unfold get_shop; by rewrite Hs2|].
  split; [by rewrite H3'|].
  rewrite Hget. unfold get_shop. rewrite H3'. simpl. by rewrite get_remove_eq.
Qed.
End ApiClaims.

(** ** The route optimizer *)

Section OptimizerClaims.
Import Optimizer.

(** C9, as the code has it.  Pressing the enabled button sends one
    request for the selected route.  When the collaborator answers with a
    result, that result is what the mutation yields, with the [timeSaved]
    and [fuelSaved] it came with (their sign is not looked at), a
    "Route Optimized" notice is shown, and the history query is marked for
    re-fetching with its cached data left as it was.  When the request
    fails, the only thing shown is the "Optimization Failed" notice, which
    carries no cause, and the history cache is not touched.  In neither
    case does the client write a result into the history cache. *)
Theorem optimize_outcome (server : string → Settled) (c : Client) :
  disabled c = false →
  requests (optimize server c) = (requests c ++ [url (selectedRoute c)])%list ∧
  data (optimizationHistory (optimize server c)) = data (optimizationHistory c) ∧
  match server (url (selectedRoute c)) with
  | Resolved d =>
      mutation (optimize server c) = Success d ∧
      toasts (optimize server c)
      = (toasts c ++ [mkToast "Route Optimized"
                        (Some (Saved (timeSaved d) (fuelSaved d))) false])%list ∧
      isInvalidated (optimizationHistory (optimize server c)) = true
  | Rejected =>
      failureNotice (optimize server c) ∧
      toasts (optimize server c)
      = (toasts c ++ [mkToast "Optimization Failed" None true])%list ∧
      optimizationHistory (optimize server c) = optimizationHistory c
  end.
Proof.
  intros Hen. unfold optimize, click. rewrite Hen. unfold settle. simpl.
  destruct (server _) as [d|]; simpl; repeat split; try done.
  apply last_snoc.
Qed.

Lemma optimize_outcome_witness :
  disabled Samples.clientR1 = false ∧
  failureNotice (optimize Samples.failingServer Samples.clientR1) ∧
  optimizationHistory (optimize Samples.failingServer Samples.clientR1)
  = optimizationHistory Samples.clientR1.
Proof.
  split; [reflexivity|].
  destruct (optimize_outcome Samples.failingServer Samples.clientR1 eq_refl)
    as (_ & _ & Hfail & _ & Hhist).
  split; [exact Hfail | exact Hhist].
Defined.

(** A collaborator that answers with [timeSaved = -5] is a success for the
    client: what is yielded is a result with a negative [timeSaved], and no
    failure notice is shown. *)
Lemma optimize_negative_saving :
  ¬ ((∃ d, mutation (optimize Samples.slowerServer Samples.clientR1) = Success d ∧
           (0 <= timeSaved d)%Q ∧ (0 <= fuelSaved d)%Q) ∨
     failureNotice (optimize Samples.slowerServer Samples.clientR1)).
Proof.
  intros [(d & Hd & Ht & _)|[Hm _]].
  - injection Hd as <-. by apply Ht.
  - discriminate Hm.
Qed.
End OptimizerClaims.

(** * Further properties of the code *)

(** ** Maps: keys, order, size *)

Section JsMapKeys.
Context {V : Type}.
Implicit Types (m : JsMap.t V) (k : string) (v : V).

Lemma get_is_Some_keys m k : is_Some (JsMap.get k m) ↔ k ∈ JsMap.keys m.
Proof.
  unfold JsMap.keys, JsMap.t in *. induction m as [|[k' v'] m IH]; simpl.
  - split; [by intros [? ?] | by intros ?%elem_of_nil].
  - destruct (decide (k = k')) as [->|Hne].
    + split; [intros _; by left | by eauto].
    + rewrite IH. split; [by right | by intros [?|?]%elem_of_cons].
Qed.

Lemma get_None_keys m k : JsMap.get k m = None ↔ k ∉ JsMap.keys m.
Proof. rewrite <- get_is_Some_keys, eq_None_not_Some. done. Qed.

Lemma set_fresh m k v :
  k ∉ JsMap.keys m → JsMap.set k v m = (m ++ [(k, v)])%list.
Proof.
  unfold JsMap.keys, JsMap.t in *. induction m as [|[k' v'] m IH]; simpl; [done|].
  intros [Hne Hk]%not_elem_of_cons. rewrite decide_False by done. by rewrite IH.
Qed.

Lemma keys_set_present m k v :
  k ∈ JsMap.keys m → JsMap.keys (JsMap.set k v m) = JsMap.keys m.
Proof.
  unfold JsMap.keys, JsMap.t in *. induction m as [|[k' v'] m IH]; simpl.
  - by intros ?%elem_of_nil.
  - destruct (decide (k = k')) as [->|Hne]; simpl; [done|].
    intros [?|Hin]%elem_of_cons; [done|]. f_equal. by apply IH.
Qed.

Lemma keys_remove m k :
  JsMap.keys (JsMap.remove k m) = filter (fun k' => k' ≠ k) (JsMap.keys m).
Proof.
  unfold JsMap.keys, JsMap.remove, JsMap.t in *.
  induction m as [|[k' v'] m IH]; [done|].
  rewrite fmap_cons, !filter_cons. simpl.
  destruct (decide (k' ≠ k)); simpl; [f_equal|]; exact IH.
Qed.

Lemma size_keys m : JsMap.size m = length (JsMap.keys m).
Proof. unfold JsMap.size, JsMap.keys. by rewrite length_fmap. Qed.

(** Removing a key that is there once takes exactly one entry away. *)
Lemma size_remove_NoDup m k :
  NoDup (JsMap.keys m) → k ∈ JsMap.keys m →
  S (JsMap.size (JsMap.remove k m)) = JsMap.size m.
Proof.
  rewrite !size_keys, keys_remove. generalize (JsMap.keys m). clear m.
  intros l. induction l as [|k' l IH]; [by intros _ ?%elem_of_nil|].
  intros [Hk' Hnd]%NoDup_cons Hin. rewrite filter_cons.
  destruct (decide (k' ≠ k)) as [Hne|Heq]; simpl.
  - f_equal. apply IH; [done|]. by apply elem_of_cons in Hin as [?|?].
  - apply dec_stable in Heq. subst k'. f_equal.
    clear IH Hin Hnd. induction l as [|k0 l IH]; [done|].
    apply not_elem_of_cons in Hk' as [Hne Hk']. rewrite filter_cons.
    rewrite decide_True by done. simpl. f_equal. by apply IH.
Qed.
End JsMapKeys.

(** ** The keys of a store *)

Section KeysInvariant.
Import Inv.
Implicit Types (ms : Kind → JsMap.t JsObject) (k : Kind) (key : string).

Lemma elem_keysOf ms key :
  key ∈ keysOf ms ↔ ∃ k, key ∈ JsMap.keys (ms k).
Proof.
  unfold keysOf. rewrite !elem_of_app. split.
  - intros [?|[?|[?|?]]]; eauto.
  - intros [[] ?]; auto.
Qed.

(** In a well-formed store an id names the records of one kind only. *)
Lemma wfKeys_one_kind mkId c ms k k' key :
  wfKeys mkId c ms → key ∈ JsMap.keys (ms k) → key ∈ JsMap.keys (ms k') → k = k'.
Proof.
  intros [Hnd _] H1 H2. unfold keysOf in Hnd.
  apply NoDup_app in Hnd as (_ & Hs & Hnd).
  apply NoDup_app in Hnd as (_ & Hd & Hnd).
  apply NoDup_app in Hnd as (_ & Hr & _).
  destruct k, k'; try done; exfalso;
    first [ eapply Hs; [eassumption|]; rewrite !elem_of_app; by auto
          | eapply Hd; [eassumption|]; rewrite !elem_of_app; by auto
          | eapply Hr; [eassumption|]; by auto ].
Qed.

Lemma wfKeys_NoDup mkId c ms k : wfKeys mkId c ms → NoDup (JsMap.keys (ms k)).
Proof.
  intros [Hnd _]. unfold keysOf in Hnd.
  apply NoDup_app in Hnd as (Hs & _ & Hnd).
  apply NoDup_app in Hnd as (Hd & _ & Hnd).
  apply NoDup_app in Hnd as (Hr & _ & Ht).
  by destruct k.
Qed.

Lemma wfKeys_fresh mkId c ms k :
  Inj (=) (=) mkId → wfKeys mkId c ms → mkId (S c) ∉ JsMap.keys (ms k).
Proof.
  intros Hinj [_ Hiss] Hin.
  destruct (Hiss (mkId (S c))) as (i & Hi & Heq); [apply elem_keysOf; eauto|].
  apply Hinj in Heq. lia.
Qed.

(** The three ways a store changes: a record under the next id, a record
    under a key that is there, a key taken away. *)
Lemma wfKeys_insert mkId c ms ms' k v :
  Inj (=) (=) mkId → wfKeys mkId c ms →
  ms' k = JsMap.set (mkId (S c)) v (ms k) → (∀ k', k' ≠ k → ms' k' = ms k') →
  wfKeys mkId (S c) ms'.
Proof.
  intros Hinj Hwf Hk Hother.
  assert (∀ k0, mkId (S c) ∉ JsMap.keys (ms k0)) as Hfresh
      by (intros; by eapply wfKeys_fresh).
  assert (JsMap.keys (ms' k) = (JsMap.keys (ms k) ++ [mkId (S c)])%list) as Hkeys.
  { rewrite Hk, set_fresh by done. unfold JsMap.keys. by rewrite fmap_app. }
  assert (keysOf ms' ≡ₚ mkId (S c) :: keysOf ms) as Hperm.
  { unfold keysOf. destruct k; rewrite Hkeys, ?Hother by done; solve_Permutation. }
  destruct Hwf as [Hnd Hiss]. split.
  - rewrite Hperm. apply NoDup_cons. split; [|done].
    intros (k0 & ?)%elem_keysOf. by eapply Hfresh.
  - intros key Hin. rewrite Hperm in Hin. apply elem_of_cons in Hin as [->|Hin].
    + exists (S c). split; [lia | done].
    + destruct (Hiss key Hin) as (i & Hi & ->). exists i. split; [lia | done].
Qed.

Lemma wfKeys_replace mkId c ms ms' k key v :
  wfKeys mkId c ms → key ∈ JsMap.keys (ms k) →
  ms' k = JsMap.set key v (ms k) → (∀ k', k' ≠ k → ms' k' = ms k') →
  wfKeys mkId c ms'.
Proof.
  intros Hwf Hin Hk Hother.
  assert (keysOf ms' = keysOf ms) as Heq.
  { unfold keysOf. destruct k; rewrite Hk, keys_set_present, ?Hother by done; done. }
  unfold wfKeys. by rewrite Heq.
Qed.

Lemma wfKeys_remove mkId c ms ms' k key :
  wfKeys mkId c ms →
  ms' k = JsMap.remove key (ms k) → (∀ k', k' ≠ k → ms' k' = ms k') →
  wfKeys mkId c ms'.
Proof.
  intros [Hnd Hiss] Hk Hother.
  assert (keysOf ms' `sublist_of` keysOf ms) as Hsub.
  { unfold keysOf.
    destruct k; rewrite Hk, keys_remove, ?Hother by done;
      repeat (apply sublist_app; [try done; try apply sublist_filter|]);
      try done; apply sublist_filter. }
  split.
  - by eapply sublist_NoDup.
  - intros key' Hin. apply Hiss. by eapply elem_of_sublist.
Qed.
End KeysInvariant.

(** ** The storage layer, over any sequence of calls *)

Section StorageInvariants.
Import MemStorage Inv.
Implicit Types (k : Kind) (st : TestMemStorage) (id : string) (cs : list Call).

Lemma storageKey_inj : Inj (=) (=) storageKey.
Proof. intros n n' H. unfold storageKey in H. simpl in H. by simplify_eq. Qed.

Lemma new_wf : storageWf new.
Proof. split; [apply NoDup_nil_2 | by intros key ?%elem_of_nil]. Qed.

Lemma create_coll k data st k' :
  coll k' (create k data st).2
  = if decide (k = k')
    then JsMap.set (storageKey (S (idCounter st))) (create k data st).1 (coll k st)
    else coll k' st.
Proof. by destruct k, k'. Qed.

Lemma create_wf k data st : storageWf st → storageWf (create k data st).2.
Proof.
  intros Hwf. unfold storageWf. rewrite idCounter_create.
  eapply (wfKeys_insert _ _ _ _ k); [apply storageKey_inj | exact Hwf | |].
  - cbv beta. by rewrite create_coll, decide_True.
  - intros k' Hne. cbv beta. by rewrite create_coll, decide_False.
Qed.

Lemma update_wf k id updates st : storageWf st → storageWf (update k id updates st).2.
Proof.
  intros Hwf. unfold storageWf, update.
  destruct (JsMap.get id (coll k st)) as [x|] eqn:Hget; simpl; [|done].
  rewrite idCounter_with_coll.
  eapply (wfKeys_replace _ _ _ _ k id); [exact Hwf | | |].
  - apply get_is_Some_keys. by rewrite Hget.
  - by rewrite coll_with_coll.
  - intros k' Hne. by rewrite coll_with_coll_ne.
Qed.

Lemma delete_wf k id st : storageWf st → storageWf (delete k id st).2.
Proof.
  intros Hwf. unfold storageWf, delete. simpl. rewrite idCounter_with_coll.
  eapply (wfKeys_remove _ _ _ _ k id); [exact Hwf | |].
  - by rewrite coll_with_coll.
  - intros k' Hne. by rewrite coll_with_coll_ne.
Qed.

Lemma call_wf c st : storageWf st → storageWf (call c st).2.
Proof.
  destruct c as [k data|k id updates|k id]; unfold call.
  - intros Hwf. pose proof (create_wf k data st Hwf).
    by destruct (create k data st).
  - apply update_wf.
  - apply delete_wf.
Qed.

Lemma run_wf cs st : storageWf st → storageWf (run cs st).2.
Proof.
  revert st. induction cs as [|c cs IH]; intros st Hwf; simpl; [done|].
  pose proof (call_wf c st Hwf) as H1. destruct (call c st) as [ids st1].
  specialize (IH st1 H1). by destruct (run cs st1).
Qed.

(** X1.  The ids that [create] returns over any sequence of calls, from any
    storage, are those made of the counter values that follow the starting
    one, in order, one per [create] (an update or a delete uses none up);
    hence they are pairwise distinct, the ids of deleted records
    included. *)
Theorem created_ids_are_fresh cs st :
  (∃ n, (run cs st).1 = storageId <$> seq (S (idCounter st)) n ∧
        idCounter (run cs st).2 = (idCounter st + n)%nat) ∧
  NoDup (run cs st).1.
Proof.
  destruct (run_ids cs st) as (n & Hids & Hc). split; [by eauto|].
  rewrite Hids. apply (NoDup_fmap_2 _ (Inj0 := storageId_inj)), NoDup_seq.
Qed.

(** X2.  Whatever is created, updated and deleted on a new storage: an id is
    stored once, under one kind only, and it is one of the ids that [genId]
    has made so far. *)
Theorem storage_keys_invariant cs :
  let st := (run cs new).2 in
  (∀ k, NoDup (JsMap.keys (coll k st))) ∧
  (∀ k k' id, is_Some (get k id st) → is_Some (get k' id st) → k = k') ∧
  (∀ k id, is_Some (get k id st) →
           ∃ i, (1 ≤ i ≤ idCounter st)%nat ∧ id = "test-id-" +:+ pretty i).
Proof.
  intros st. pose proof (run_wf cs new new_wf) as Hwf. fold st in Hwf.
  split; [|split].
  - intros k. apply (wfKeys_NoDup _ _ _ k Hwf).
  - intros k k' id H1%get_is_Some_keys H2%get_is_Some_keys.
    eapply (wfKeys_one_kind _ _ _ k k' id Hwf); done.
  - intros k id H1%get_is_Some_keys. destruct Hwf as [_ Hiss].
    apply Hiss. apply elem_keysOf. by exists k.
Qed.

(** X3.  On a storage reached from a new one, [create] does not replace
    anything: the record is added at the end of the list of its kind, the
    lists of the other kinds are as they were. *)
Theorem create_appends cs k (data : JsVal) :
  let st := (run cs new).2 in
  getAll k (create k data st).2 = (getAll k st ++ [(create k data st).1])%list ∧
  (∀ k', k' ≠ k → getAll k' (create k data st).2 = getAll k' st).
Proof.
  intros st. pose proof (run_wf cs new new_wf) as Hwf. fold st in Hwf.
  unfold getAll. split.
  - rewrite create_coll, decide_True by done.
    rewrite set_fresh by apply (wfKeys_fresh _ _ _ k storageKey_inj Hwf).
    unfold JsMap.values. by rewrite fmap_app.
  - intros k' Hne. by rewrite create_coll, decide_False.
Qed.

(** X4.  What is read after a [create], from any storage: the new record under
    the new id, and everything else as before. *)
Theorem get_after_create k k' id' (data : JsVal) st :
  get k' id' (create k data st).2
  = if decide (k' = k ∧ id' = "test-id-" +:+ pretty (S (idCounter st)))
    then Some (create k data st).1
    else get k' id' st.
Proof.
  unfold get. rewrite create_coll. destruct (decide (k = k')) as [<-|Hk].
  - destruct (decide (id' = "test-id-" +:+ pretty (S (idCounter st)))) as [->|Hid].
    + rewrite decide_True by done. apply get_set_eq.
    + rewrite decide_False by (by intros [_ ?]). apply get_set_ne.
      intros Heq. apply Hid. by rewrite <- Heq.
  - by rewrite decide_False by (intros [? _]; congruence).
Qed.

(** X5.  [update] keeps the ids of every kind, in their order: no record is
    added, removed or moved, whether the id is known or not. *)
Theorem update_keeps_keys k id (updates : JsVal) st k' :
  JsMap.keys (coll k' (update k id updates st).2) = JsMap.keys (coll k' st).
Proof.
  unfold update. destruct (JsMap.get id (coll k st)) as [x|] eqn:Hget; simpl; [|done].
  destruct (decide (k = k')) as [<-|Hk].
  - rewrite coll_with_coll. apply keys_set_present, get_is_Some_keys. by rewrite Hget.
  - by rewrite coll_with_coll_ne.
Qed.

(** X6.  [delete] of a stored id, on a storage reached from a new one, takes
    exactly one record away and leaves the order of the others. *)
Theorem delete_removes_one cs k id :
  let st := (run cs new).2 in
  is_Some (get k id st) →
  S (JsMap.size (coll k (delete k id st).2)) = JsMap.size (coll k st) ∧
  JsMap.keys (coll k (delete k id st).2)
  = filter (fun id' => id' ≠ id) (JsMap.keys (coll k st)).
Proof.
  intros st Hget. pose proof (run_wf cs new new_wf) as Hwf. fold st in Hwf.
  unfold delete. simpl. rewrite coll_with_coll. split.
  - apply size_remove_NoDup; [apply (wfKeys_NoDup _ _ _ k Hwf)|].
    by apply get_is_Some_keys.
  - apply keys_remove.
Qed.

Lemma delete_removes_one_witness :
  is_Some (get Shop "test-id-1" (run [CCreate Shop (JObj Samples.shopX)] new).2) ∧
  S (JsMap.size (coll Shop (delete Shop "test-id-1"
                              (run [CCreate Shop (JObj Samples.shopX)] new).2).2))
  = JsMap.size (coll Shop (run [CCreate Shop (JObj Samples.shopX)] new).2).
Proof.
  assert (is_Some (get Shop "test-id-1" (run [CCreate Shop (JObj Samples.shopX)] new).2))
    as H by (eexists; reflexivity).
  split; [exact H|].
  exact (proj1 (delete_removes_one [CCreate Shop (JObj Samples.shopX)] Shop "test-id-1" H)).
Defined.
End StorageInvariants.

Section StorageRecords.
Import MemStorage Inv.
Implicit Types (k : Kind) (st : TestMemStorage) (id : string) (cs : list Call).

Lemma get_Some_elem {V} (m : JsMap.t V) key (v : V) :
  JsMap.get key m = Some v → (key, v) ∈ m.
Proof.
  unfold JsMap.t in *. induction m as [|[k' v'] m IH]; simpl; [done|].
  destruct (decide (key = k')) as [->|Hne].
  - intros [= ->]. by left.
  - intros ?%IH. by right.
Qed.

Lemma elem_get_Some {V} (m : JsMap.t V) key (v : V) :
  NoDup (JsMap.keys m) → (key, v) ∈ m → JsMap.get key m = Some v.
Proof.
  unfold JsMap.keys, JsMap.t in *. induction m as [|[k' v'] m IH]; simpl.
  - by intros _ ?%elem_of_nil.
  - intros [Hk' Hnd]%NoDup_cons [[= -> ->]|Hin]%elem_of_cons.
    + by rewrite decide_True.
    + rewrite decide_False; [by apply IH|].
      intros ->. apply Hk'. apply list_elem_of_fmap. by exists (k', v).
Qed.

(** X7.  On a storage reached from a new one, the list of a kind holds exactly
    the records that can be read by id. *)
Theorem getAll_agrees_with_get cs k (x : JsObject) :
  let st := (run cs new).2 in
  x ∈ getAll k st ↔ ∃ id, get k id st = Some x.
Proof.
  intros st. pose proof (run_wf cs new new_wf) as Hwf. fold st in Hwf.
  pose proof (wfKeys_NoDup _ _ _ k Hwf) as Hnd. simpl in Hnd.
  unfold getAll, get, JsMap.values. rewrite list_elem_of_fmap. split.
  - intros ([id y] & -> & Hin). exists id. by apply elem_get_Some.
  - intros (id & Hget). exists (id, x). split; [done|]. by apply get_Some_elem.
Qed.

Lemma create_consistent k data st : idConsistent st → idConsistent (create k data st).2.
Proof.
  intros Hc k' id' x. rewrite get_after_create. case_decide as Hd.
  - destruct Hd as [-> ->]. intros [= <-]. unfold create. simpl.
    apply lookup_insert_eq.
  - apply Hc.
Qed.

Lemma update_consistent k id updates st :
  Js.ownProps updates !! "id" = None →
  idConsistent st → idConsistent (update k id updates st).2.
Proof.
  intros Hno Hc k' id' x. unfold get, update.
  destruct (JsMap.get id (coll k st)) as [y|] eqn:Hget; simpl; [|apply Hc].
  destruct (decide (k = k')) as [<-|Hk].
  - rewrite coll_with_coll. destruct (decide (id = id')) as [<-|Hid].
    + rewrite get_set_eq. intros [= <-]. unfold Js.spread.
      rewrite lookup_union_r by done. by apply (Hc k id).
    + rewrite get_set_ne by done. apply Hc.
  - rewrite coll_with_coll_ne by done. apply Hc.
Qed.

Lemma delete_consistent k id st : idConsistent st → idConsistent (delete k id st).2.
Proof.
  intros Hc k' id' x. unfold get, delete. simpl.
  destruct (decide (k = k')) as [<-|Hk].
  - rewrite coll_with_coll. destruct (decide (id = id')) as [<-|Hid].
    + by rewrite get_remove_eq.
    + rewrite get_remove_ne by done. apply Hc.
  - rewrite coll_with_coll_ne by done. apply Hc.
Qed.

(** X8.  As long as no update patches the [id] field, every record is stored
    under the id it shows. *)
Theorem records_keep_their_id cs st :
  Forall keepsId cs → idConsistent st → idConsistent (run cs st).2.
Proof.
  revert st. induction cs as [|c cs IH]; intros st Hcs Hc; simpl; [done|].
  apply Forall_cons in Hcs as [Hk Hcs].
  assert (idConsistent (call c st).2) as H1.
  { destruct c as [k data|k id updates|k id]; unfold call.
    - pose proof (create_consistent k data st Hc). by destruct (create k data st).
    - by apply update_consistent.
    - by apply delete_consistent. }
  destruct (call c st) as [ids st1]. specialize (IH st1 Hcs H1).
  by destruct (run cs st1).
Qed.

Lemma new_consistent : idConsistent new.
Proof. intros k id x. by destruct k. Qed.

Lemma records_keep_their_id_witness :
  Forall keepsId [CCreate Shop (JObj Samples.shopOld);
                  CUpdate Shop "test-id-1" (JObj Samples.patchName)] ∧
  idConsistent new ∧
  idConsistent (run [CCreate Shop (JObj Samples.shopOld);
                     CUpdate Shop "test-id-1" (JObj Samples.patchName)] new).2.
Proof.
  assert (Forall keepsId [CCreate Shop (JObj Samples.shopOld);
                          CUpdate Shop "test-id-1" (JObj Samples.patchName)]) as H.
  { apply Forall_cons. split; [exact I|]. apply Forall_cons. split; [reflexivity|].
    apply Forall_nil_2. }
  split; [exact H|]. split; [exact new_consistent|].
  exact (records_keep_their_id _ new H new_consistent).
Defined.

(** X9.  [update] does not protect the [id] field: a patch that has one rewrites
    the [id] the stored record shows, while the record stays under its
    key. *)
Theorem update_rewrites_id k id (v : JsVal) st (x : JsObject) :
  get k id st = Some x →
  get k id (update k id (JObj {["id" := v]}) st).2 = Some (<["id" := v]> x).
Proof.
  intros Hget. unfold get, update in *. rewrite Hget. simpl.
  rewrite coll_with_coll, get_set_eq. unfold Js.spread.
  by rewrite insert_union_singleton_l.
Qed.

Lemma update_rewrites_id_witness :
  get Shop "test-id-1" (createShop (JObj Samples.shopOld) new).2
  = Some (<["id" := JStr "test-id-1"]> Samples.shopOld) ∧
  get Shop "test-id-1"
      (update Shop "test-id-1" (JObj {["id" := JStr "other"]})
              (createShop (JObj Samples.shopOld) new).2).2
  = Some (<["id" := JStr "other"]> (<["id" := JStr "test-id-1"]> Samples.shopOld)).
Proof.
  split; [reflexivity|].
  exact (update_rewrites_id Shop "test-id-1" (JStr "other")
           (createShop (JObj Samples.shopOld) new).2 _ eq_refl).
Defined.
End StorageRecords.

(** ** The HTTP application, over any sequence of requests *)

Section ApiInvariants.
Import Api Inv.
Implicit Types (k : Kind) (st : Store) (now : string) (req : Request) (b : JsVal).

Lemma apiKey_inj : Inj (=) (=) apiKey.
Proof. intros n n' H. unfold apiKey in H. simpl in H. by simplify_eq. Qed.

Lemma api_coll_with_coll_ne k k' m st : k ≠ k' → coll k' (with_coll k m st) = coll k' st.
Proof. by destruct k, k'. Qed.

Lemma api_idCounter_with_coll k m st : idCounter (with_coll k m st) = idCounter st.
Proof. by destruct k. Qed.

(** What a create handler answers, and the store it leaves. *)
Lemma post_cases k b st :
  (status (post k b st).1 = 400%nat ∧
   post k b st = (mkResponse 400 (Some (error (invalidMessage k))), st)) ∨
  (status (post k b st).1 = 201%nat ∧
   (post k b st).1 = mkResponse 201 (Some (JObj (made k b st))) ∧
   idCounter (post k b st).2 = S (idCounter st) ∧
   ∀ k', coll k' (post k b st).2
         = if decide (k = k')
           then JsMap.set (apiKey (S (idCounter st))) (made k b st) (coll k st)
           else coll k' st).
Proof.
  destruct k; simpl; unfold post_shops, post_drivers, post_routes, post_targets;
    destruct (_ || _); [by left | | by left | | by left | | by left |];
    right; (split; [done|]); (split; [done|]); (split; [done|]);
    intros []; reflexivity.
Qed.

Lemma post_rejected_unchanged k b st :
  (400 ≤ status (post k b st).1)%nat → (post k b st).2 = st.
Proof.
  destruct (post_cases k b st) as [[_ ->]|[-> _]]; [done | intros; lia].
Qed.

(** X10.  An answer in the 400s or 500s means that nothing was changed: a
    rejected create does not use up an id, a PATCH or DELETE of an unknown id
    and a request no route matches leave every map as it was. *)
Theorem errors_change_nothing now req st :
  (400 ≤ status (handle now req st).1)%nat → (handle now req st).2 = st.
Proof.
  unfold handle.
  repeat (case_match; try done); subst;
    first [ apply (post_rejected_unchanged Shop)
          | apply (post_rejected_unchanged Driver)
          | apply (post_rejected_unchanged Route)
          | apply (post_rejected_unchanged Target)
          | idtac ];
    unfold get_health, get_shops, get_drivers, get_routes, get_targets, get_shop,
      patch_shop, delete_shop, delete_driver, no_route; simpl; try done;
    try (by intros; lia);
    repeat (case_match; simpl; try done; try (by intros; lia)).
Qed.

Lemma errors_change_nothing_witness :
  (400 ≤ status (handle "" (mkRequest POST ["api"; "shops"] (JObj Samples.shopNoName))
                        createTestApp).1)%nat ∧
  (handle "" (mkRequest POST ["api"; "shops"] (JObj Samples.shopNoName)) createTestApp).2
  = createTestApp.
Proof.
  assert (400 ≤ status (handle "" (mkRequest POST ["api"; "shops"]
                                     (JObj Samples.shopNoName)) createTestApp).1)%nat
    as H by (vm_compute; lia).
  split; [exact H|]. exact (errors_change_nothing _ _ _ H).
Defined.

(** X11.  A GET never changes the store, whatever it asks for. *)
Theorem get_changes_nothing now req st :
  method req = GET → (handle now req st).2 = st.
Proof.
  intros Hm. unfold handle. rewrite Hm.
  repeat (case_match; try done); subst;
    unfold get_health, get_shops, get_drivers, get_routes, get_targets, get_shop,
      no_route; simpl; try done;
    repeat (case_match; simpl; try done).
Qed.

Lemma get_changes_nothing_witness :
  method (mkRequest GET ["api"; "shops"; "test-1"] JUndefined) = GET ∧
  (handle "" (mkRequest GET ["api"; "shops"; "test-1"] JUndefined) createTestApp).2
  = createTestApp.
Proof.
  split; [reflexivity|].
  exact (get_changes_nothing "" (mkRequest GET ["api"; "shops"; "test-1"] JUndefined)
           createTestApp eq_refl).
Defined.

Lemma post_created k b st :
  Js.ownProps b !! "id" = None →
  (status (post k b st).1 ≠ 201%nat ∧ idCounter (post k b st).2 = idCounter st) ∨
  (status (post k b st).1 = 201%nat ∧
   idOf (post k b st).1 = JStr (apiKey (S (idCounter st))) ∧
   idCounter (post k b st).2 = S (idCounter st)).
Proof.
  intros Hno. destruct (post_cases k b st) as [[Hs Heq]|(Hs & Hr & Hc & _)].
  - left. rewrite Heq. simpl. split; [lia | done].
  - right. split; [done|]. split; [|done]. rewrite Hr. unfold idOf, made. simpl.
    rewrite lookup_union_r by done. by rewrite lookup_insert_eq.
Qed.

Lemma handle_created now req st :
  noId req →
  (status (handle now req st).1 ≠ 201%nat ∧
   idCounter (handle now req st).2 = idCounter st) ∨
  (status (handle now req st).1 = 201%nat ∧
   idOf (handle now req st).1 = JStr (apiKey (S (idCounter st))) ∧
   idCounter (handle now req st).2 = S (idCounter st)).
Proof.
  intros Hno. unfold handle.
  repeat (case_match; try (by left)); subst;
    first [ by apply (post_created Shop)
          | by apply (post_created Driver)
          | by apply (post_created Route)
          | by apply (post_created Target)
          | idtac ];
    left;
    unfold get_health, get_shops, get_drivers, get_routes, get_targets, get_shop,
      patch_shop, delete_shop, delete_driver, no_route; simpl; try done;
    repeat (case_match; simpl; try done).
Qed.

Lemma serve_created now reqs st :
  Forall noId reqs →
  ∃ n, createdIds (serve now reqs st).1
       = (fun i => JStr (apiKey i)) <$> seq (S (idCounter st)) n ∧
       idCounter (serve now reqs st).2 = (idCounter st + n)%nat.
Proof.
  revert st. induction reqs as [|req reqs IH]; intros st Hall; simpl.
  - exists 0%nat. split; [done | lia].
  - apply Forall_cons in Hall as [Hno Hall].
    pose proof (handle_created now req st Hno) as Hstep.
    destruct (handle now req st) as [resp st1]. simpl in Hstep.
    destruct (IH st1 Hall) as (n & Hids & Hn).
    destruct (serve now reqs st1) as [resps st2]. simpl in *.
    unfold createdIds in *. rewrite filter_cons.
    destruct Hstep as [[Hs Hc]|(Hs & Hid & Hc)].
    + rewrite decide_False by done. exists n. rewrite Hids, Hn, Hc. done.
    + rewrite decide_True by done. exists (S n). rewrite fmap_cons, Hids, Hid, Hn, Hc.
      simpl. split; [done | lia].
Qed.

(** X12.  As long as no request body carries an [id] of its own, the ids shown by
    the 201 answers are pairwise distinct, whatever else is requested in
    between and whatever the store held at the start. *)
Theorem created_ids_distinct now reqs st :
  Forall noId reqs → NoDup (createdIds (serve now reqs st).1).
Proof.
  intros Hall. destruct (serve_created now reqs st Hall) as (n & -> & _).
  assert (Inj (=) (=) (fun i => JStr (apiKey i))) as Hinj.
  { intros i j H. unfold apiKey in H. simpl in H. by simplify_eq. }
  apply (NoDup_fmap_2 _), NoDup_seq.
Qed.

Lemma created_ids_distinct_witness :
  Forall noId [mkRequest POST ["api"; "shops"] (JObj Samples.shopX);
               mkRequest POST ["api"; "routes"] (JObj Samples.routeR1)] ∧
  NoDup (createdIds
           (serve "" [mkRequest POST ["api"; "shops"] (JObj Samples.shopX);
                      mkRequest POST ["api"; "routes"] (JObj Samples.routeR1)]
                  createTestApp).1).
Proof.
  assert (Forall noId [mkRequest POST ["api"; "shops"] (JObj Samples.shopX);
                       mkRequest POST ["api"; "routes"] (JObj Samples.routeR1)]) as H.
  { apply Forall_cons. split; [reflexivity|]. apply Forall_cons. split; [reflexivity|].
    apply Forall_nil_2. }
  split; [exact H|]. exact (created_ids_distinct "" _ createTestApp H).
Defined.

Lemma createTestApp_wf : apiWf createTestApp.
Proof. split; [apply NoDup_nil_2 | by intros key ?%elem_of_nil]. Qed.

Lemma post_wf k b st : apiWf st → apiWf (post k b st).2.
Proof.
  intros Hwf. destruct (post_cases k b st) as [[_ ->]|(_ & _ & Hc & Hcoll)]; [done|].
  unfold apiWf. rewrite Hc.
  eapply (wfKeys_insert _ _ _ _ k); [apply apiKey_inj | exact Hwf | |].
  - cbv beta. by rewrite Hcoll, decide_True.
  - intros k' Hne. cbv beta. by rewrite Hcoll, decide_False.
Qed.

Lemma patch_shop_wf id b st : apiWf st → apiWf (patch_shop id b st).2.
Proof.
  intros Hwf. unfold patch_shop.
  destruct (JsMap.get id (shops st)) as [x|] eqn:Hget; simpl; [|done].
  eapply (wfKeys_replace _ _ _ _ Shop id); [exact Hwf | | reflexivity |].
  - apply get_is_Some_keys. simpl. by rewrite Hget.
  - by intros [].
Qed.

Lemma delete_shop_wf id st : apiWf st → apiWf (delete_shop id st).2.
Proof.
  intros Hwf. unfold delete_shop. destruct (negb _); simpl; [done|].
  eapply (wfKeys_remove _ _ _ _ Shop id); [exact Hwf | reflexivity |]. by intros [].
Qed.

Lemma delete_driver_wf id st : apiWf st → apiWf (delete_driver id st).2.
Proof.
  intros Hwf. unfold delete_driver. destruct (negb _); simpl; [done|].
  eapply (wfKeys_remove _ _ _ _ Driver id); [exact Hwf | reflexivity |]. by intros [].
Qed.

Lemma handle_wf now req st : apiWf st → apiWf (handle now req st).2.
Proof.
  intros Hwf. unfold handle.
  repeat (case_match; try done); subst;
    first [ by apply (post_wf Shop) | by apply (post_wf Driver)
          | by apply (post_wf Route) | by apply (post_wf Target)
          | by apply patch_shop_wf | by apply delete_shop_wf
          | by apply delete_driver_wf | idtac ];
    unfold get_shop; repeat (case_match; simpl; try done).
Qed.

Lemma serve_wf now reqs st : apiWf st → apiWf (serve now reqs st).2.
Proof.
  revert st. induction reqs as [|req reqs IH]; intros st Hwf; simpl; [done|].
  pose proof (handle_wf now req st Hwf) as H1. destruct (handle now req st) as [r st1].
  specialize (IH st1 H1). by destruct (serve now reqs st1).
Qed.

(** X13.  In the application, after any requests: an accepted create adds its
    record at the end of the list of its kind and replaces nothing; the
    record is the body over the generated id and the defaults of the kind,
    so a field of the body, of any type, wins over a default, and a default
    is used exactly when the body lacks the field. *)
Theorem post_appends now reqs k b :
  let st := (serve now reqs createTestApp).2 in
  status (post k b st).1 = 201%nat →
  json (post k b st).1 = Some (JObj (made k b st)) ∧
  JsMap.values (coll k (post k b st).2)
  = (JsMap.values (coll k st) ++ [made k b st])%list ∧
  (∀ f, made k b st !! f
        = match Js.ownProps b !! f with
          | Some v => Some v
          | None => (<["id" := JStr (apiKey (S (idCounter st)))]> (defaults k)) !! f
          end).
Proof.
  intros st Hs. pose proof (serve_wf now reqs _ createTestApp_wf) as Hwf. fold st in Hwf.
  destruct (post_cases k b st) as [[Hs' _]|(_ & Hr & _ & Hcoll)]; [congruence|].
  split; [by rewrite Hr|]. split.
  - rewrite Hcoll, decide_True by done.
    rewrite set_fresh by apply (wfKeys_fresh _ _ _ k apiKey_inj Hwf).
    unfold JsMap.values. by rewrite fmap_app.
  - intros f. unfold made. rewrite lookup_union.
    by destruct (Js.ownProps b !! f), (_ !! f).
Qed.

Lemma post_appends_witness :
  let st := (serve "" [mkRequest POST ["api"; "shops"] (JObj Samples.shopX)]
                   createTestApp).2 in
  status (post Driver (JObj Samples.driverSam) st).1 = 201%nat ∧
  JsMap.values (coll Driver (post Driver (JObj Samples.driverSam) st).2)
  = (JsMap.values (coll Driver st) ++ [made Driver (JObj Samples.driverSam) st])%list.
Proof.
  intros st. split; [reflexivity|].
  exact (proj1 (proj2 (post_appends ""
                         [mkRequest POST ["api"; "shops"] (JObj Samples.shopX)]
                         Driver (JObj Samples.driverSam) eq_refl))).
Defined.

(** X14.  A shop that was created from a body without an [id] is read back, under
    the id the answer shows, as the very record of the answer. *)
Theorem post_shop_then_get now b st :
  status (post_shops b st).1 = 201%nat →
  Js.ownProps b !! "id" = None →
  ∃ id, idOf (post_shops b st).1 = JStr id ∧
        handle now (mkRequest GET ["api"; "shops"; id] JUndefined) (post_shops b st).2
        = (mkResponse 200 (json (post_shops b st).1), (post_shops b st).2).
Proof.
  intros Hs Hno.
  destruct (post_cases Shop b st) as [[Hs' _]|(_ & Hr & _ & Hcoll)]; simpl in *;
    [congruence|].
  exists (apiKey (S (idCounter st))). split.
  - rewrite Hr. unfold idOf, made. simpl. rewrite lookup_union_r by done.
    by rewrite lookup_insert_eq.
  - change (handle now (mkRequest GET ["api"; "shops"; apiKey (S (idCounter st))]
                        JUndefined) (post_shops b st).2)
      with (get_shop (apiKey (S (idCounter st))) (post_shops b st).2).
    unfold get_shop. specialize (Hcoll Shop). simpl in Hcoll. rewrite Hcoll.
    rewrite get_set_eq. by rewrite Hr.
Qed.

Lemma post_shop_then_get_witness :
  status (post_shops (JObj Samples.shopX) createTestApp).1 = 201%nat ∧
  Js.ownProps (JObj Samples.shopX) !! "id" = None ∧
  ∃ id, idOf (post_shops (JObj Samples.shopX) createTestApp).1 = JStr id ∧
        handle "" (mkRequest GET ["api"; "shops"; id] JUndefined)
               (post_shops (JObj Samples.shopX) createTestApp).2
        = (mkResponse 200 (json (post_shops (JObj Samples.shopX) createTestApp).1),
           (post_shops (JObj Samples.shopX) createTestApp).2).
Proof.
  split; [reflexivity|]. split; [reflexivity|].
  exact (post_shop_then_get "" (JObj Samples.shopX) createTestApp eq_refl eq_refl).
Defined.

(** X15.  [PATCH /api/shops/:id]: an unknown id is answered 404 and nothing
    changes; a known one is answered 200 with the body merged over the
    stored shop, which is what a GET of the id returns afterwards, and no
    other shop, no other collection and no counter changes. *)
Theorem patch_shop_spec now id b st :
  match JsMap.get id (shops st) with
  | None =>
      patch_shop id b st = (mkResponse 404 (Some (error "Shop not found")), st)
  | Some shop =>
      let st' := (patch_shop id b st).2 in
      (patch_shop id b st).1 = mkResponse 200 (Some (JObj (Js.ownProps b ∪ shop))) ∧
      handle now (mkRequest GET ["api"; "shops"; id] JUndefined) st'
      = (mkResponse 200 (Some (JObj (Js.ownProps b ∪ shop))), st') ∧
      (∀ id', id' ≠ id → JsMap.get id' (shops st') = JsMap.get id' (shops st)) ∧
      JsMap.keys (shops st') = JsMap.keys (shops st) ∧
      drivers st' = drivers st ∧ routes st' = routes st ∧ targets st' = targets st ∧
      idCounter st' = idCounter st
  end.
Proof.
  unfold patch_shop. destruct (JsMap.get id (shops st)) as [shop|] eqn:Hget; [|done].
  simpl. split; [done|]. split.
  - change (handle now (mkRequest GET ["api"; "shops"; id] JUndefined) ?s)
      with (get_shop id s).
    unfold get_shop. simpl. by rewrite get_set_eq.
  - split; [intros id' Hne; by apply get_set_ne|].
    split; [|done]. apply keys_set_present, get_is_Some_keys. by rewrite Hget.
Qed.

(** X16.  [DELETE /api/shops/:id] is answered 204 exactly when the shop is
    stored, else 404; either way the id is not found afterwards, and a
    second DELETE is answered 404 and changes nothing. *)
Theorem delete_shop_spec now id st :
  let del := mkRequest DELETE ["api"; "shops"; id] JUndefined in
  let st' := (handle now del st).2 in
  (status (handle now del st).1 = 204%nat ↔ is_Some (JsMap.get id (shops st))) ∧
  (status (handle now del st).1 = 404%nat ↔ JsMap.get id (shops st) = None) ∧
  (handle now (mkRequest GET ["api"; "shops"; id] JUndefined) st').1
  = mkResponse 404 (Some (error "Shop not found")) ∧
  handle now del st' = (mkResponse 404 (Some (error "Shop not found")), st').
Proof.
  intros del st'.
  assert (∀ s, handle now del s = delete_shop id s) as Hd by reflexivity.
  assert (∀ s, handle now (mkRequest GET ["api"; "shops"; id] JUndefined) s
               = get_shop id s) as Hg by reflexivity.
  assert (JsMap.get id (shops st') = None) as Hgone.
  { unfold st'. rewrite Hd. unfold delete_shop, JsMap.has.
    destruct (JsMap.get id (shops st)) eqn:Hget; simpl; [apply get_remove_eq | done]. }
  split; [|split; [|split]].
  - rewrite Hd. unfold delete_shop, JsMap.has.
    destruct (JsMap.get id (shops st)); simpl; split; try done; by intros [? ?].
  - rewrite Hd. unfold delete_shop, JsMap.has.
    destruct (JsMap.get id (shops st)); simpl; split; done.
  - rewrite Hg. unfold get_shop. by rewrite Hgone.
  - rewrite Hd. unfold delete_shop, JsMap.has. by rewrite Hgone.
Qed.
End ApiInvariants.

(** ** The backup endpoints *)

Section BackupFacts.
Import Backup.
Implicit Types (env : option string) (now : string) (req : Request) (st : bool).

Lemma cronSecret_nonempty env : cronSecret env ≠ "".
Proof.
  destruct env as [s|]; simpl; [|done].
  destruct (String.eqb s "") eqn:E; [done|]. by apply String.eqb_neq in E.
Qed.

Lemma authHeader_expected env req :
  authHeader req = expected env ↔ authorization req = Some (expected env).
Proof.
  unfold authHeader. destruct (authorization req) as [h|]; simpl.
  - split; [by intros -> | by intros [= ->]].
  - split; [|done]. unfold expected. simpl. done.
Qed.

(** X18.  [POST /api/backup/cron] is answered 200 exactly when the
    [Authorization] header is [Bearer] followed by the secret, and 401
    otherwise; it neither needs nor changes the login.  The secret is never
    empty (an empty [CRON_SECRET] gives the default one), so a request with
    no header, or with [Bearer ] and nothing after it, is refused. *)
Theorem cron_authorisation env now req st :
  (cron env now req st).2 = st ∧
  (Api.status (cron env now req st).1 = 200%nat
   ↔ authorization req = Some ("Bearer " +:+ cronSecret env)) ∧
  (Api.status (cron env now req st).1 = 401%nat
   ↔ authorization req ≠ Some ("Bearer " +:+ cronSecret env)) ∧
  (authorization req = None ∨ authorization req = Some "Bearer " →
   Api.status (cron env now req st).1 = 401%nat).
Proof.
  assert (Hiff := authHeader_expected env req). unfold expected in Hiff.
  unfold cron, expected.
  destruct (String.eqb (authHeader req) ("Bearer " +:+ cronSecret env)) eqn:E; simpl.
  - apply String.eqb_eq in E. apply Hiff in E.
    split; [done|]. split; [done|]. split; [split; [done | by intros []]|].
    rewrite E. intros [?|[= H]]; [done|]. by destruct (cronSecret_nonempty env).
  - apply String.eqb_neq in E. rewrite Hiff in E.
    split; [done|]. split; [split; [done | by intros ?]|]. done.
Qed.

Lemma handle_login_state env now req st :
  (handle env now req st).2 = st || bool_decide (isLogin req).
Proof.
  destruct (decide (isLogin req)) as [[Hm Hp]|Hno].
  - rewrite bool_decide_eq_true_2 by done. rewrite orb_true_r.
    unfold handle. by rewrite Hp, Hm.
  - rewrite bool_decide_eq_false_2 by done. rewrite orb_false_r.
    unfold handle, isLogin, login, backup, cron, history in *.
    repeat case_decide; destruct (method req) eqn:Hm; simpl; try done;
      try (by destruct Hno);
      repeat (match goal with |- context [if ?c then _ else _] => destruct c end);
      done.
Qed.

Lemma handle_protected env now req st :
  protected req →
  Api.status (handle env now req st).1 = if st then 200%nat else 401%nat.
Proof.
  intros [[Hm Hp]|[Hm Hp]]; unfold handle; rewrite Hm, Hp; simpl;
    unfold backup, history; by destruct st.
Qed.



(** X20.  There is no way to log out: once logged in, every later request to a
    protected endpoint is answered 200, and the login is still there at the
    end. *)
Theorem login_is_permanent env now reqs :
  (serve env now reqs true).2 = true ∧
  Forall2 (fun req resp => protected req → Api.status resp = 200%nat)
          reqs (serve env now reqs true).1.
Proof.
  induction reqs as [|req reqs IH]; simpl.
  - split; [done | constructor].
  - pose proof (handle_login_state env now req true) as Hst.
    pose proof (handle_protected env now req true) as Hp.
    destruct (handle env now req true) as [resp st1]. simpl in *. subst st1.
    destruct IH as [Hfin Hresps].
    destruct (serve env now reqs true) as [resps st2]. simpl in *.
    split; [done|]. by constructor.
Qed.

(** A login request logs in, whatever the state was. *)
Lemma login_logs_in env now req st : isLogin req → (handle env now req st).2 = true.
Proof.
  intros H. rewrite handle_login_state, bool_decide_eq_true_2 by done.
  by rewrite orb_true_r.
Qed.
End BackupFacts.

(** ** The route optimizer: the button *)

Section OptimizerFacts.
Import Optimizer.
Implicit Types (c : Client) (server : string → Settled).

Lemma click_pending c : disabled c = false → disabled (click c) = true.
Proof.
  intros Hen. unfold click. rewrite Hen. unfold disabled, isPending. simpl.
  apply orb_true_r.
Qed.

Lemma click_click c : click (click c) = click c.
Proof.
  destruct (disabled c) eqn:Hd.
  - unfold click. rewrite Hd. unfold click. by rewrite Hd.
  - pose proof (click_pending c Hd) as Hp. unfold click at 1. by rewrite Hp.
Qed.

(** X21.  However often the button is pressed before the answer arrives, it is as
    if it had been pressed once: one request at most is on its way. *)
Theorem click_once n c : Nat.iter (S n) click c = click c.
Proof.
  induction n as [|n IH]; [done|].
  change (Nat.iter (S (S n)) click c) with (click (Nat.iter (S n) click c)).
  rewrite IH. apply click_click.
Qed.

(** X22.  Nothing happens without a selected route or while a request is
    pending: no request, no notice, no change at all.  A request that is
    sent names the selected route, which is not empty. *)
Theorem optimize_guard server c :
  (disabled c = true → optimize server c = c) ∧
  (disabled c = false →
   selectedRoute c ≠ "" ∧
   requests (optimize server c)
   = (requests c ++ ["/api/analytics/optimize-route/" +:+ selectedRoute c])%list).
Proof.
  split; intros Hd.
  - unfold optimize, click. by rewrite Hd.
  - split.
    + unfold disabled in Hd. apply orb_false_iff in Hd as [Hs _].
      by apply String.eqb_neq in Hs.
    + unfold optimize, click, settle. rewrite Hd. simpl.
      by destruct (server _).
Qed.

Lemma optimize_step server c :
  disabled c = false →
  disabled (optimize server c) = false ∧
  selectedRoute (optimize server c) = selectedRoute c ∧
  length (requests (optimize server c)) = S (length (requests c)) ∧
  length (toasts (optimize server c)) = S (length (toasts c)).
Proof.
  intros Hd. pose proof Hd as Hd'. unfold disabled in Hd'.
  apply orb_false_iff in Hd' as [Hs _].
  unfold optimize, click, settle. rewrite Hd. simpl.
  destruct (server _); simpl; unfold disabled, isPending; simpl; rewrite Hs;
    rewrite !length_app; simpl; repeat split; try done; lia.
Qed.

(** X23.  An optimization that has been answered, with a result or with a
    failure, leaves the button enabled and the selection as it was, so the
    caller can ask again; nothing is retried by itself: [n] optimizations
    are [n] requests and [n] notices. *)
Theorem optimize_repeatedly server n c :
  disabled c = false →
  disabled (Nat.iter n (optimize server) c) = false ∧
  selectedRoute (Nat.iter n (optimize server) c) = selectedRoute c ∧
  length (requests (Nat.iter n (optimize server) c)) = (length (requests c) + n)%nat ∧
  length (toasts (Nat.iter n (optimize server) c)) = (length (toasts c) + n)%nat.
Proof.
  intros Hd. induction n as [|n (IH1 & IH2 & IH3 & IH4)]; simpl.
  - repeat split; try done; lia.
  - destruct (optimize_step server _ IH1) as (H1 & H2 & H3 & H4).
    rewrite H2, H3, H4, IH2, IH3, IH4. repeat split; try done; lia.
Qed.

Lemma optimize_repeatedly_witness :
  disabled Samples.clientR1 = false ∧
  length (requests (Nat.iter 3 (optimize Samples.failingServer) Samples.clientR1)) = 3%nat.
Proof.
  split; [reflexivity|].
  exact (proj1 (proj2 (proj2 (optimize_repeatedly Samples.failingServer 3
                                 Samples.clientR1 eq_refl)))).
Defined.
End OptimizerFacts.

(** ** Validation: normalized records *)

Section NormalizedRecords.
Import Zod.
Implicit Types (s : Schema) (p : list Seg) (v : JsVal) (o r : JsObject)
  (shape : ObjectSchema).

Lemma imap_parse_again (f : nat → JsVal → Result JsVal) (l : list JsVal) :
  (∀ i x y, f i x = Ok y → f i y = Ok y) →
  (∀ i x iss, f i x = Err iss → iss ≠ []) →
  concat (issuesOf <$> imap f l) = [] →
  imap f (valueOf <$> imap f l) = Ok <$> (valueOf <$> imap f l).
Proof.
  revert f. induction l as [|x l IH]; intros f Hidem Hne Hnil; [done|].
  rewrite imap_cons in *. rewrite !fmap_cons in *. simpl in Hnil.
  apply app_eq_nil in Hnil as [Hx Hl]. rewrite imap_cons.
  destruct (f 0%nat x) as [y|iss] eqn:E; simpl in *.
  - rewrite (Hidem _ _ _ E). f_equal. apply IH; [|by eauto | done].
    intros i. apply (Hidem (S i)).
  - subst iss. by destruct (Hne _ _ _ E).
Qed.

(** Only [undefined] parses to [undefined]. *)
Lemma parse_defined s p v : v ≠ JUndefined → parse s p v ≠ Ok JUndefined.
Proof.
  revert p v. induction s as [min|int|elem IH|inner IH|inner IH|inner IH d];
    intros p v Hv; simpl.
  - destruct v; try done. destruct min; [by destruct (_ <? _)%nat | done].
  - destruct v; try done. by destruct (_ && _).
  - destruct v; try done. by destruct (concat _).
  - destruct v; try done; by apply IH.
  - destruct v; try done; by apply IH.
  - destruct v; try done; by apply IH.
Qed.

(** A value that passed a field schema passes it again, unchanged. *)
Lemma parse_again s p v v' : parse s p v = Ok v' → parse s p v' = Ok v'.
Proof.
  revert p v v'. induction s as [min|int|elem IH|inner IH|inner IH|inner IH d];
    intros p v v'; simpl.
  - destruct v; try done. destruct min as [n|].
    + destruct (_ <? _)%nat eqn:E; [done|]. intros [= <-]. by rewrite E.
    + by intros [= <-].
  - destruct v; try done. destruct (_ && _) eqn:E; [done|]. intros [= <-]. by rewrite E.
  - destruct v; try done.
    destruct (concat _) as [|i iss] eqn:Hc; [|done]. intros [= <-].
    rewrite imap_parse_again; [| |by intros; eapply parse_Err_nonempty|done].
    + assert (issuesOf <$> (Ok <$> (valueOf <$> imap (fun i x =>
                 parse elem (p ++ [Index i]) x) l)) = (fun _ => []) <$>
                 (valueOf <$> imap (fun i x => parse elem (p ++ [Index i]) x) l)) as ->.
      { rewrite <- list_fmap_compose. done. }
      assert (∀ (A : Type) (xs : list A), concat ((fun _ => @nil Issue) <$> xs) = [])
        as Hnil by (intros A xs; induction xs; simpl; auto).
      rewrite Hnil. by rewrite <- list_fmap_compose, list_fmap_id.
    + intros i x y. apply IH.
  - destruct v; try (intros [= <-]; done); intros H; pose proof (IH _ _ _ H);
      by destruct v'.
  - destruct v; try (intros [= <-]; done); intros H; pose proof (IH _ _ _ H);
      by destruct v'.
  - destruct v eqn:Ev; intros H; pose proof (IH _ _ _ H) as H';
      try (by destruct v');
      (destruct v'; try done; by apply parse_defined in H).
Qed.

Lemma concat_all_nil {A B} (g : A → list B) (l : list A) :
  (∀ a, a ∈ l → g a = []) → concat (g <$> l) = [].
Proof.
  induction l as [|a l IH]; [done|]. intros Hall. rewrite fmap_cons. simpl.
  rewrite (Hall a) by (by left). apply IH. intros a' ?. apply Hall. by right.
Qed.

Lemma parseShape_no_issues shape o k s :
  (parseShape shape o).1 = [] → (k, s) ∈ shape →
  ∃ vf, parse s [Key k] (field k o) = Ok vf.
Proof.
  intros Hnil Hin. destruct (parse s [Key k] (field k o)) as [vf|iss] eqn:E; [by eauto|].
  assert (reported k (parseShape shape o).1) as (i & Hi & _).
  { apply reported_iff. exists s. by rewrite E. }
  rewrite Hnil in Hi. by apply elem_of_nil in Hi.
Qed.

Lemma safeParse_again shape v r :
  NoDup shape.*1 → safeParse shape v = Ok r → safeParse shape (JObj r) = Ok r.
Proof.
  intros Hnd. unfold safeParse. destruct v as [| | | | | |o]; try done.
  destruct (parseShape shape o) as [iss out] eqn:Ho.
  destruct iss as [|i iss]; [|done]. intros [= ->].
  assert (∀ k s, (k, s) ∈ shape →
            ∃ vf, parse s [Key k] (field k o) = Ok vf ∧
                  parse s [Key k] (field k r) = Ok vf ∧
                  r !! k = match vf, r !! k with
                           | JUndefined, None => None
                           | _, _ => Some vf
                           end) as Hfields.
  { intros k s Hin.
    destruct (parseShape_no_issues shape o k s) as [vf Hvf]; [by rewrite Ho | done|].
    pose proof (parseShape_lookup shape o k s vf Hnd Hin Hvf) as Hr.
    rewrite Ho in Hr. simpl in Hr. exists vf. split; [done|].
    assert (field k r = vf) as Hf.
    { unfold field. rewrite Hr. by destruct vf, (o !! k). }
    rewrite Hf. split; [by eapply parse_again|].
    rewrite Hr. by destruct vf, (o !! k). }
  assert ((parseShape shape r).1 = []) as Hnil.
  { rewrite parseShape_issues. clear Ho.
    assert (∀ ks, ks ∈ shape → issuesOf (parse ks.2 [Key ks.1] (field ks.1 r)) = [])
      as Hall.
    { intros [k s] Hin. simpl. destruct (Hfields k s Hin) as (vf & _ & Hre & _).
      by rewrite Hre. }
    by apply concat_all_nil. }
  pose proof (parseShape_lookup shape r) as Hlook.
  pose proof (parseShape_dom shape r) as Hdom'.
  pose proof (parseShape_dom shape o) as Hdom. rewrite Ho in Hdom. simpl in Hdom.
  destruct (parseShape shape r) as [iss' out']. simpl in *. subst iss'.
  f_equal. apply map_eq. intros k.
  destruct (decide (k ∈ shape.*1)) as [Hin|Hnin].
  - apply list_elem_of_fmap in Hin as ([k0 s] & -> & Hin). simpl.
    destruct (Hfields k0 s Hin) as (vf & _ & Hre & Hr).
    rewrite (Hlook k0 s vf Hnd Hin Hre). by rewrite <- Hr.
  - transitivity (@None JsVal).
    + apply not_elem_of_dom. intros ?%Hdom'. done.
    + symmetry. apply not_elem_of_dom. intros ?%Hdom. done.
Qed.

(** X24.  Validation is a normalization: the record it returns for an input is
    valid itself, and validating it again returns it unchanged (defaults are
    filled in once, nothing more is dropped). *)
Theorem normalized_record_is_fixed k (v : JsVal) (r : JsObject) :
  safeParse (insertSchema k) v = Ok r →
  safeParse (insertSchema k) (JObj r) = Ok r.
Proof. apply safeParse_again, insertSchema_NoDup. Qed.

Lemma normalized_record_is_fixed_witness :
  safeParse insertShopSchema (JObj Samples.shopX)
  = Ok (<["category" := JStr "retail"]> (<["status" := JStr "active"]> Samples.shopX)) ∧
  safeParse insertShopSchema
    (JObj (<["category" := JStr "retail"]> (<["status" := JStr "active"]> Samples.shopX)))
  = Ok (<["category" := JStr "retail"]> (<["status" := JStr "active"]> Samples.shopX)).
Proof.
  assert (safeParse (insertSchema Shop) (JObj Samples.shopX)
          = Ok (<["category" := JStr "retail"]>
                  (<["status" := JStr "active"]> Samples.shopX))) as H
      by (vm_compute; reflexivity).
  split; [exact H|]. exact (normalized_record_is_fixed Shop _ _ H).
Defined.

Lemma parseShape_unknown_key shape o f (x : JsVal) :
  f ∉ shape.*1 → parseShape shape (<[f := x]> o) = parseShape shape o.
Proof.
  induction shape as [|[k s] shape IH]; simpl; [done|].
  intros [Hne Hnin]%not_elem_of_cons. rewrite (IH Hnin).
  unfold emit. by rewrite !lookup_insert_ne.
Qed.

(** X25.  A field the schema does not have plays no part: with it or without it,
    the input is accepted or refused alike, with the same normalized record
    or the same violations. *)
Theorem unknown_field_is_ignored k f (x : JsVal) (o : JsObject) :
  f ∉ (insertSchema k).*1 →
  safeParse (insertSchema k) (JObj (<[f := x]> o)) = safeParse (insertSchema k) (JObj o).
Proof. intros Hf. unfold safeParse. by rewrite parseShape_unknown_key. Qed.

Lemma unknown_field_is_ignored_witness :
  ("id" ∉ (insertSchema Shop).*1) ∧
  safeParse insertShopSchema (JObj (<["id" := JStr "dup"]> Samples.shopX))
  = safeParse insertShopSchema (JObj Samples.shopX).
Proof.
  assert ("id" ∉ (insertSchema Shop).*1) as H.
  { apply (bool_decide_unpack _). by vm_compute. }
  split; [exact H|]. exact (unknown_field_is_ignored Shop "id" (JStr "dup") _ H).
Defined.
End NormalizedRecords.

Section ApiKeys.
Import Api Inv.

(** X17.  In the application, after any requests, bodies with an [id] of their
    own included: the key under which a record is stored is one of the
    generated ids, it is stored once, and under one collection only. *)
Theorem api_keys_invariant (now : string) (reqs : list Request) :
  let st := (serve now reqs createTestApp).2 in
  (∀ k, NoDup (JsMap.keys (coll k st))) ∧
  (∀ k k' id, is_Some (JsMap.get id (coll k st)) →
              is_Some (JsMap.get id (coll k' st)) → k = k') ∧
  (∀ k id, is_Some (JsMap.get id (coll k st)) →
           ∃ i, (1 ≤ i ≤ idCounter st)%nat ∧ id = "test-" +:+ pretty i).
Proof.
  intros st. pose proof (serve_wf now reqs _ createTestApp_wf) as Hwf. fold st in Hwf.
  split; [|split].
  - intros k. apply (wfKeys_NoDup _ _ _ k Hwf).
  - intros k k' id H1%get_is_Some_keys H2%get_is_Some_keys.
    eapply (wfKeys_one_kind _ _ _ k k' id Hwf); done.
  - intros k id H1%get_is_Some_keys. destruct Hwf as [_ Hiss].
    apply Hiss. apply elem_keysOf. by exists k.
Qed.
End ApiKeys.
